(** * ragbench: semantic chunker and retrieval scorer

    A shallow embedding of [lib/utils.js] (cosine similarity and the
    greedy sentence-merging chunker) and of the scoring functions of
    [evaluate.js] (per-query rank metrics, aggregation and grouping),
    with the properties the specification states about them. *)

From Stdlib Require Import List Arith Lia Bool ZArith String Ascii.
From Stdlib Require Import QArith Qcanon.
From Stdlib Require Import Floats.
From stdpp Require Import gmap strings list fin_maps.
Import ListNotations.

Local Open Scope nat_scope.

(** ** Cosine similarity ([lib/utils.js], lines 13-21)

    JavaScript numbers are IEEE 754 binary64 values; the kernel's
    primitive floats are the same format with the same rounding, so the
    loop is embedded operation for operation. *)

Module Cosine.

Definition vector := list float.

(** [b[i]] for [i] beyond the end of [b] is [undefined], which the
    multiplication coerces to NaN. *)
Definition at_index (b : vector) (i : nat) : float :=
  nth i b PrimFloat.nan.

Record acc := mkAcc { dot : float; normA : float; normB : float }.

Definition acc0 : acc := mkAcc 0%float 0%float 0%float.

(** One iteration of the [for] loop, at index [i] with [x = a[i]]. *)
Definition body (b : vector) (s : acc) (i : nat) (x : float) : acc :=
  let y := at_index b i in
  mkAcc (dot s + x * y)%float (normA s + x * x)%float (normB s + y * y)%float.

Fixpoint loop (b : vector) (s : acc) (i : nat) (a : vector) : acc :=
  match a with
  | [] => s
  | x :: a' => loop b (body b s i x) (S i) a'
  end.

Definition cosineSimilarity (a b : vector) : float :=
  let s := loop b acc0 0 a in
  (dot s / (PrimFloat.sqrt (normA s) * PrimFloat.sqrt (normB s)))%float.

End Cosine.

(** ** The chunker ([lib/utils.js], lines 26-89) *)

Module Chunker.
Import Cosine.

(** What an [async] call settles to. *)
Inductive outcome (A : Type) : Type :=
| Fulfilled (a : A)
| Rejected.
Arguments Fulfilled {A} a.
Arguments Rejected {A}.

(** The options object with its destructuring defaults; the literal
    [0.65] denotes the binary64 value [0x1.4cccccccccccdp-1]. *)
Record options := mkOptions {
  threshold : float;
  maxTokens : nat;
  minTokens : nat
}.

Definition defaults : options := mkOptions 0x1.4cccccccccccdp-1%float 500 100.

(** Calls to the injected embedding capability are the only effect; a
    computation threads the log of the texts it was invoked on. *)
Definition Eff (A : Type) : Type := list string -> A * list string.

Definition ret {A} (a : A) : Eff A := fun log => (a, log).

Definition bind {A B} (m : Eff A) (k : A -> Eff B) : Eff B :=
  fun log => let (a, log') := m log in k a log'.

Notation "'let!' x ':=' m 'in' k" := (bind m (fun x => k))
  (at level 10, x name, m at level 100, k at level 200).

Fixpoint mapE {A B} (f : A -> Eff B) (l : list A) : Eff (list B) :=
  match l with
  | [] => ret []
  | x :: l' => let! y := f x in let! ys := mapE f l' in ret (y :: ys)
  end.

(** [Promise.all]: the array of results when every promise fulfils, a
    rejection as soon as one of them rejects. *)
Fixpoint promiseAll {A} (ps : list (option A)) : option (list A) :=
  match ps with
  | [] => Some []
  | None :: _ => None
  | Some a :: ps' =>
      match promiseAll ps' with
      | Some l => Some (a :: l)
      | None => None
      end
  end.

(** [currentSentences.join(' ')] *)
Definition join (l : list string) : string := String.concat " " l.

(** The loop state; [chunks] holds whatever [emit] makes of a flushed
    buffer, so that the same loop yields the joined strings of the
    source ([emit := join]) and the underlying sentence groups
    ([emit := id]). *)
Record state (C : Type) := mkState {
  chunks : list C;
  currentSentences : list string;
  currentTokens : nat
}.
Arguments mkState {C}.
Arguments chunks {C}.
Arguments currentSentences {C}.
Arguments currentTokens {C}.

Section WithCollaborators.

(** The collaborators of the chunker: [nlp(text).sentences().out('array')],
    the tokenizer's [encode] and the caller's [embedFn], whose promise
    fulfils with a vector or rejects ([None]). *)
Variable splitIntoSentences : string -> list string.
Variable encode : string -> list nat.
Variable embedFn : string -> option vector.

Definition invoke (s : string) : Eff (option vector) :=
  fun log => (embedFn s, log ++ [s]).

Definition tokens (sent : string) : nat := length (encode sent).

Section Loop.
Context {C : Type} (emit : list string -> C).
Variable opts : options.
Variable sentences : list string.
Variable sentenceEmbeddings : list vector.

(** The body of [for (let i = 0; i < sentences.length; i++)]. *)
Definition body (st : state C) (i : nat) : state C :=
  let sent := nth i sentences EmptyString in
  let sentEmbedding := nth i sentenceEmbeddings [] in
  let sentTokens := tokens sent in
  match currentSentences st with
  | [] =>
      mkState (chunks st) (currentSentences st ++ [sent])
              (currentTokens st + sentTokens)
  | _ :: _ =>
      let prevEmbedding := nth (i - 1) sentenceEmbeddings [] in
      let similarity := cosineSimilarity prevEmbedding sentEmbedding in
      let shouldSplit :=
        (similarity <? threshold opts)%float
        || (maxTokens opts <? currentTokens st + sentTokens) in
      if shouldSplit && (minTokens opts <=? currentTokens st) then
        mkState (chunks st ++ [emit (currentSentences st)]) [sent] sentTokens
      else
        mkState (chunks st) (currentSentences st ++ [sent])
                (currentTokens st + sentTokens)
  end.

Definition init : state C := mkState [] [] 0.

Definition run : state C :=
  fold_left body (seq 0 (length sentences)) init.

(** The flush after the loop. *)
Definition finish (st : state C) : list C :=
  match currentSentences st with
  | [] => chunks st
  | _ :: _ => chunks st ++ [emit (currentSentences st)]
  end.

Definition chunkLoop : list C := finish run.

End Loop.

Definition chunkWith {C} (emit : list string -> C) (text : string)
    (opts : options) : Eff (outcome (list C)) :=
  let sentences := splitIntoSentences text in
  let! promises := mapE invoke sentences in
  match promiseAll promises with
  | None => ret Rejected
  | Some sentenceEmbeddings =>
      ret (Fulfilled (chunkLoop emit opts sentences sentenceEmbeddings))
  end.

Definition semanticChunkWithLimits : string -> options -> Eff (outcome (list string)) :=
  chunkWith join.

(** The sentence groups behind the returned strings. *)
Definition semanticChunkGroups : string -> options -> Eff (outcome (list (list string))) :=
  chunkWith (fun g => g).

(** The token count the loop keeps for a buffer: the sum of its
    sentences' token counts. *)
Definition groupTokens (g : list string) : nat :=
  fold_right (fun s n => tokens s + n) 0 g.

End WithCollaborators.

End Chunker.

(** ** Numbers of the scorer

    Every number the scoring functions produce is a ratio of small
    integers, a sum of such ratios, or what a division by zero makes of
    them.  They are modelled as exact rationals extended with the IEEE
    special values; rounding and the sign of zero are not modelled. *)

Module Number.

Inductive number : Type :=
| Fin (q : Qc)
| PosInf
| NegInf
| NaN.

Definition of_Z (z : Z) : number := Fin (Q2Qc (inject_Z z)).
Definition of_nat (n : nat) : number := of_Z (Z.of_nat n).

Definition zero : number := of_nat 0.
Definition one : number := of_nat 1.

Definition is_zero (q : Qc) : bool := Qeq_bool q 0.
Definition is_neg (q : Qc) : bool := negb (Qle_bool 0 q).

Definition add (x y : number) : number :=
  match x, y with
  | NaN, _ | _, NaN => NaN
  | Fin a, Fin b => Fin (a + b)
  | PosInf, NegInf | NegInf, PosInf => NaN
  | PosInf, _ | _, PosInf => PosInf
  | NegInf, _ | _, NegInf => NegInf
  end.

Definition div (x y : number) : number :=
  match x, y with
  | NaN, _ | _, NaN => NaN
  | Fin a, Fin b =>
      if is_zero b then
        if is_zero a then NaN else if is_neg a then NegInf else PosInf
      else Fin (a / b)
  | Fin _, _ => Fin 0
  | PosInf, Fin b => if is_neg b then NegInf else PosInf
  | NegInf, Fin b => if is_neg b then PosInf else NegInf
  | _, _ => NaN
  end.

(** [x >= y]: false as soon as one side is NaN. *)
Definition geb (x y : number) : bool :=
  match x, y with
  | NaN, _ | _, NaN => false
  | PosInf, _ | _, NegInf => true
  | Fin a, Fin b => Qle_bool b a
  | _, _ => false
  end.

Definition is_nan (x : number) : bool :=
  match x with NaN => true | _ => false end.

End Number.

(** ** The scorer ([evaluate.js], lines 67-251) *)

Module Scorer.
Import Number.

(** Document and section identifiers are JSON strings or integers,
    compared with [===]. *)
Inductive ident : Type :=
| IdStr (s : string)
| IdNum (z : Z).

Definition strict_eq (x y : ident) : bool :=
  match x, y with
  | IdStr a, IdStr b => String.eqb a b
  | IdNum a, IdNum b => Z.eqb a b
  | _, _ => false
  end.

Record payload_t := mkPayload {
  doc_id : ident;
  section_id : ident;
  text : string
}.

Record result := mkResult {
  score : number;
  payload : payload_t
}.

Record qrel_t := mkQrel {
  qrel_doc_id : ident;
  qrel_section_id : ident
}.

Definition isRelevant (r : result) (qrel : qrel_t) : bool :=
  strict_eq (doc_id (payload r)) (qrel_doc_id qrel)
  && strict_eq (section_id (payload r)) (qrel_section_id qrel).

Definition isDocumentMatch (r : result) (qrel : qrel_t) : bool :=
  strict_eq (doc_id (payload r)) (qrel_doc_id qrel).

(** [for (let i = 0; i < results.length; i++) if (match(results[i], qrel))
    return 1 / (i + 1); return 0], from index [i] over the rest of the
    array. *)
Fixpoint reciprocalRankFrom (matches : result -> qrel_t -> bool)
    (i : nat) (results : list result) (qrel : qrel_t) : number :=
  match results with
  | [] => of_nat 0
  | r :: rest =>
      if matches r qrel then div (of_nat 1) (of_nat (i + 1))
      else reciprocalRankFrom matches (S i) rest qrel
  end.

Definition calculateMRR (results : list result) (qrel : qrel_t) : number :=
  reciprocalRankFrom isRelevant 0 results qrel.

Definition calculateDocMRR (results : list result) (qrel : qrel_t) : number :=
  reciprocalRankFrom isDocumentMatch 0 results qrel.

(** [results.slice(0, k)] *)
Definition slice0 {A} (k : nat) (l : list A) : list A := firstn k l.

Definition calculateRecallAtK (results : list result) (qrel : qrel_t) (k : nat) : number :=
  let topK := slice0 k results in
  let found := existsb (fun r => isRelevant r qrel) topK in
  if found then of_nat 1 else of_nat 0.

Definition calculatePrecisionAtK (results : list result) (qrel : qrel_t) (k : nat) : number :=
  let topK := slice0 k results in
  let relevantCount := length (List.filter (fun r => isRelevant r qrel) topK) in
  div (of_nat relevantCount) (of_nat k).

(** The metric names, in the order of the object literal that
    [for (const key in metrics)] enumerates. *)
Inductive key : Type :=
| mrr | docMrr | ndcg
| recall_at_1 | recall_at_3 | recall_at_5 | recall_at_10
| precision_at_1 | precision_at_3 | precision_at_5.

Definition keys : list key :=
  [mrr; docMrr; ndcg; recall_at_1; recall_at_3; recall_at_5; recall_at_10;
   precision_at_1; precision_at_3; precision_at_5].

Record metrics_t := mkMetrics {
  m_mrr : number;
  m_docMrr : number;
  m_ndcg : number;
  m_recall_at_1 : number;
  m_recall_at_3 : number;
  m_recall_at_5 : number;
  m_recall_at_10 : number;
  m_precision_at_1 : number;
  m_precision_at_3 : number;
  m_precision_at_5 : number
}.

(** [metrics[key]] *)
Definition get (k : key) (m : metrics_t) : number :=
  match k with
  | mrr => m_mrr m
  | docMrr => m_docMrr m
  | ndcg => m_ndcg m
  | recall_at_1 => m_recall_at_1 m
  | recall_at_3 => m_recall_at_3 m
  | recall_at_5 => m_recall_at_5 m
  | recall_at_10 => m_recall_at_10 m
  | precision_at_1 => m_precision_at_1 m
  | precision_at_3 => m_precision_at_3 m
  | precision_at_5 => m_precision_at_5 m
  end.

(** [metrics[key] = v] *)
Definition set (k : key) (v : number) (m : metrics_t) : metrics_t :=
  match m with
  | mkMetrics a b c d e f g h i j =>
      match k with
      | mrr => mkMetrics v b c d e f g h i j
      | docMrr => mkMetrics a v c d e f g h i j
      | ndcg => mkMetrics a b v d e f g h i j
      | recall_at_1 => mkMetrics a b c v e f g h i j
      | recall_at_3 => mkMetrics a b c d v f g h i j
      | recall_at_5 => mkMetrics a b c d e v g h i j
      | recall_at_10 => mkMetrics a b c d e f v h i j
      | precision_at_1 => mkMetrics a b c d e f g v i j
      | precision_at_3 => mkMetrics a b c d e f g h v j
      | precision_at_5 => mkMetrics a b c d e f g h i v
      end
  end.

(** A JSON field that may be absent, [null] or a string. *)
Inductive jsval : Type :=
| JUndefined
| JNull
| JString (s : string).

(** The part of an evaluation record that aggregation and grouping read. *)
Record evaluation := mkEvaluation {
  queryId : string;
  queryType : jsval;
  querySource : jsval;
  metrics : metrics_t
}.

Definition zeroMetrics : metrics_t :=
  mkMetrics (of_nat 0) (of_nat 0) (of_nat 0) (of_nat 0) (of_nat 0)
            (of_nat 0) (of_nat 0) (of_nat 0) (of_nat 0) (of_nat 0).

(** [for (const key in metrics) metrics[key] += evaluation.metrics[key]] *)
Definition accumulate (m : metrics_t) (ev : evaluation) : metrics_t :=
  fold_left (fun m k => set k (add (get k m) (get k (metrics ev))) m) keys m.

(** [for (const key in metrics) metrics[key] /= count] *)
Definition average (count : nat) (m : metrics_t) : metrics_t :=
  fold_left (fun m k => set k (div (get k m) (of_nat count)) m) keys m.

Definition aggregateMetrics (evaluations : list evaluation) : metrics_t :=
  let sums := fold_left accumulate evaluations zeroMetrics in
  let count := length evaluations in
  average count sums.

(** [v || 'unknown'] as a property key: every falsy value ([undefined],
    [null], the empty string) gives way to the default. *)
Definition orUnknown (v : jsval) : string :=
  match v with
  | JString EmptyString => "unknown"
  | JString s => s
  | _ => "unknown"
  end.

(** [byType] and [bySource] start as [{}]: besides its own properties,
    such an object answers a read of any name on [Object.prototype] with
    the inherited member, a function (or, for [__proto__], the prototype
    object), which is truthy and has no [push]. *)
Definition objectPrototypeKeys : list string :=
  ["constructor"; "hasOwnProperty"; "isPrototypeOf"; "propertyIsEnumerable";
   "toLocaleString"; "toString"; "valueOf"; "__proto__";
   "__defineGetter__"; "__defineSetter__"; "__lookupGetter__";
   "__lookupSetter__"].

Definition inherited (k : string) : bool :=
  existsb (String.eqb k) objectPrototypeKeys.

Inductive completion (A : Type) : Type :=
| Normal (a : A)
| ThrowTypeError.
Arguments Normal {A} a.
Arguments ThrowTypeError {A}.

(** [if (!o[k]) o[k] = []; o[k].push(ev)] on the own properties [o]. *)
Definition pushInto (o : gmap string (list evaluation)) (k : string)
    (ev : evaluation) : completion (gmap string (list evaluation)) :=
  match o !! k with
  | Some bucket => Normal (<[k := bucket ++ [ev]]> o)
  | None =>
      if inherited k then ThrowTypeError
      else Normal (<[k := [] ++ [ev]]> o)
  end.

Definition groupStep
    (acc : completion (gmap string (list evaluation) * gmap string (list evaluation)))
    (ev : evaluation)
    : completion (gmap string (list evaluation) * gmap string (list evaluation)) :=
  match acc with
  | ThrowTypeError => ThrowTypeError
  | Normal (byType, bySource) =>
      let type := orUnknown (queryType ev) in
      let source := orUnknown (querySource ev) in
      match pushInto byType type ev, pushInto bySource source ev with
      | Normal byType', Normal bySource' => Normal (byType', bySource')
      | _, _ => ThrowTypeError
      end
  end.

(** [{ count: evals.length, ...aggregateMetrics(evals) }] *)
Record groupEntry := mkGroupEntry {
  count : nat;
  aggregate : metrics_t
}.

Definition summarize (evals : list evaluation) : groupEntry :=
  mkGroupEntry (length evals) (aggregateMetrics evals).

Record grouped := mkGrouped {
  byType : gmap string groupEntry;
  bySource : gmap string groupEntry
}.

Definition groupMetrics (evaluations : list evaluation) : completion grouped :=
  match fold_left groupStep evaluations (Normal (∅, ∅)) with
  | ThrowTypeError => ThrowTypeError
  | Normal (byType, bySource) =>
      Normal (mkGrouped (summarize <$> byType) (summarize <$> bySource))
  end.

(** The sum of the [count] fields of the buckets of a grouping. *)
Definition totalCount (g : gmap string groupEntry) : nat :=
  map_fold (fun _ e n => count e + n) 0 g.

End Scorer.

(** ** Stand-ins for the third-party collaborators

    Used to run the chunker on concrete texts: a segmenter that ends a
    sentence at every full stop and drops the blanks between sentences,
    a tokenizer with one token per character, and an embedding that
    fulfils with the same unit vector for every sentence. *)

Module Toy.
Import Cosine Chunker.

Fixpoint splitFrom (current : string) (text : string) : list string :=
  match text with
  | EmptyString =>
      match current with EmptyString => [] | _ => [current] end
  | String c rest =>
      if Ascii.eqb c "."%char then
        match current with
        | EmptyString => splitFrom EmptyString rest
        | _ => (current ++ ".")%string :: splitFrom EmptyString rest
        end
      else if Ascii.eqb c " "%char && String.eqb current EmptyString then
        splitFrom EmptyString rest
      else splitFrom (current ++ String c EmptyString)%string rest
  end.

Definition splitIntoSentences (text : string) : list string :=
  splitFrom EmptyString text.

Definition encode (s : string) : list nat :=
  map nat_of_ascii (list_ascii_of_string s).

Definition embedFn (s : string) : option vector := Some [1%float; 0%float].

Definition chunk : string -> options -> Eff (outcome (list string)) :=
  semanticChunkWithLimits splitIntoSentences encode embedFn.

Definition groups : string -> options -> Eff (outcome (list (list string))) :=
  semanticChunkGroups splitIntoSentences encode embedFn.

(** Valid limits ([minTokens <= maxTokens]) and inverted ones. *)
Definition tight : options := mkOptions (threshold defaults) 10 5.
Definition inverted : options := mkOptions (threshold defaults) 1 2.

End Toy.

(** ** Vocabulary of the statements *)

Module CosineSpec.
Import Cosine.

(** The specification's words: a dot product and Euclidean norms, summed
    left to right in binary64. *)
Definition dotProduct (a b : vector) : float :=
  fold_left (fun s p => (s + fst p * snd p)%float) (combine a b) 0%float.

Definition sumSquares (a : vector) : float :=
  fold_left (fun s x => (s + x * x)%float) a 0%float.

Definition norm (a : vector) : float := PrimFloat.sqrt (sumSquares a).

Definition cosineSpec (a b : vector) : float :=
  (dotProduct a b / (norm a * norm b))%float.

(** A signed zero or NaN, on the specification side of a binary64 value. *)
Definition zeroOrNaN (x : spec_float) : Prop :=
  (exists s, x = S754_zero s) \/ x = S754_nan.

End CosineSpec.

Module ChunkerSpec.
Import Cosine Chunker.

Section Loop.
Variable encode : string -> list nat.
Variable opts : options.
Variable sentences : list string.
Variable embs : list vector.

(** The loop state after [n] iterations. *)
Definition runTo {C} (emit : list string -> C) (n : nat) : state C :=
  fold_left (body encode emit opts sentences embs) (seq 0 n) init.

(** The strings are the groups, each passed through [emit]. *)
Definition mirrors {C} (emit : list string -> C) (st : state C)
    (gs : state (list string)) : Prop :=
  chunks st = map emit (chunks gs)
  /\ currentSentences st = currentSentences gs
  /\ currentTokens st = currentTokens gs.

(** A group respects the ceiling, or has one of the two shapes the loop
    lets through: a lone sentence that is itself too long, or a last
    sentence appended while the buffer was still short of [minTokens]. *)
Definition capped (g : list string) : Prop :=
  groupTokens encode g <= maxTokens opts
  \/ (exists s, g = [s] /\ maxTokens opts < tokens encode s)
  \/ (exists p s, g = p ++ [s] /\ p <> []
                  /\ groupTokens encode p < minTokens opts).

Record invariant (n : nat) (gs : state (list string)) : Prop := mkInvariant {
  inv_partition :
    concat (chunks gs) ++ currentSentences gs = firstn n sentences;
  inv_tokens : currentTokens gs = groupTokens encode (currentSentences gs);
  inv_nonempty : Forall (fun g => g <> []) (chunks gs);
  inv_started : 0 < n -> currentSentences gs <> [];
  inv_capped : Forall capped (chunks gs);
  inv_current : capped (currentSentences gs)
}.

End Loop.

End ChunkerSpec.

Module ScorerSpec.
Import Number Scorer.

(** The reciprocal of the 1-based rank of index [i]. *)
Definition recip (i : nat) : number := div (of_nat 1) (of_nat (i + 1)).

Definition exactMatches (results : list result) (qrel : qrel_t) : nat :=
  length (List.filter (fun r => isRelevant r qrel) results).

(** The specification's words: the arithmetic mean of one metric over
    the evaluations. *)
Definition column (k : key) (evs : list evaluation) : list number :=
  map (fun ev => get k (metrics ev)) evs.

Definition total (l : list number) : number := fold_left add l (of_nat 0).




(** The number of evaluations the buckets of an object hold. *)
Definition held (o : gmap string (list evaluation)) : nat :=
  map_fold (fun _ bucket n => length bucket + n) 0 o.

(** Neither grouping key of the evaluation names a member of
    [Object.prototype]. *)
Definition safeKeys (ev : evaluation) : Prop :=
  inherited (orUnknown (queryType ev)) = false
  /\ inherited (orUnknown (querySource ev)) = false.

(** The buckets before they are summarised. *)
Definition buckets (evaluations : list evaluation) :=
  fold_left groupStep evaluations (Normal (∅, ∅)).

(** The scenario of the specification. *)
Definition item (doc : string) (sec : Z) : result :=
  mkResult (of_nat 0) (mkPayload (IdStr doc) (IdNum sec) EmptyString).

Definition scenarioResults : list result :=
  [item "A" 2; item "A" 5; item "B" 1].

Definition scenarioTruth : qrel_t := mkQrel (IdStr "A") (IdNum 5).

Definition probe (type : jsval) : evaluation :=
  mkEvaluation "q1" type (JString "arxiv") zeroMetrics.

Definition scored (x : number) : evaluation :=
  mkEvaluation "q" (JString "extractive") (JString "arxiv")
    (mkMetrics x x x x x x x x x x).

End ScorerSpec.

From Stdlib Require Import Sorted.
From Stdlib Require Uint63.

(** ** Binary64 integers

    Counters and array lengths are binary64 numbers holding an integer.
    [of_Z z] is that number for [0 <= z < 2 ^ 63]; it is exact up to
    [2 ^ 53], which every array length stays below. *)

Module Binary64.

Definition of_Z (z : Z) : float := PrimFloat.of_uint63 (Uint63.of_Z z).

Definition of_nat (n : nat) : float := of_Z (Z.of_nat n).

(** [x++] *)
Definition incr (x : float) : float := (x + 1)%float.

End Binary64.

(** ** Aggregation in binary64 ([evaluate.js], lines 186-214)

    [aggregateMetrics] once more, this time with the numbers the program
    computes with: every [+=] and every [/=] rounds to binary64.  The
    exact model [Scorer.aggregateMetrics] above leaves that rounding
    out. *)

Module Aggregation.
Import Scorer.

Record metrics_t := mkMetrics {
  m_mrr : float;
  m_docMrr : float;
  m_ndcg : float;
  m_recall_at_1 : float;
  m_recall_at_3 : float;
  m_recall_at_5 : float;
  m_recall_at_10 : float;
  m_precision_at_1 : float;
  m_precision_at_3 : float;
  m_precision_at_5 : float
}.

(** [metrics[key]] *)
Definition get (k : key) (m : metrics_t) : float :=
  match k with
  | mrr => m_mrr m
  | docMrr => m_docMrr m
  | ndcg => m_ndcg m
  | recall_at_1 => m_recall_at_1 m
  | recall_at_3 => m_recall_at_3 m
  | recall_at_5 => m_recall_at_5 m
  | recall_at_10 => m_recall_at_10 m
  | precision_at_1 => m_precision_at_1 m
  | precision_at_3 => m_precision_at_3 m
  | precision_at_5 => m_precision_at_5 m
  end.

(** [metrics[key] = v] *)
Definition set (k : key) (v : float) (m : metrics_t) : metrics_t :=
  match m with
  | mkMetrics a b c d e f g h i j =>
      match k with
      | mrr => mkMetrics v b c d e f g h i j
      | docMrr => mkMetrics a v c d e f g h i j
      | ndcg => mkMetrics a b v d e f g h i j
      | recall_at_1 => mkMetrics a b c v e f g h i j
      | recall_at_3 => mkMetrics a b c d v f g h i j
      | recall_at_5 => mkMetrics a b c d e v g h i j
      | recall_at_10 => mkMetrics a b c d e f v h i j
      | precision_at_1 => mkMetrics a b c d e f g v i j
      | precision_at_3 => mkMetrics a b c d e f g h v j
      | precision_at_5 => mkMetrics a b c d e f g h i v
      end
  end.

Record evaluation := mkEvaluation {
  queryId : string;
  queryType : jsval;
  querySource : jsval;
  metrics : metrics_t
}.

Definition zeroMetrics : metrics_t :=
  mkMetrics 0%float 0%float 0%float 0%float 0%float
            0%float 0%float 0%float 0%float 0%float.

(** [for (const key in metrics) metrics[key] += evaluation.metrics[key]] *)
Definition accumulate (m : metrics_t) (ev : evaluation) : metrics_t :=
  fold_left (fun m k => set k (get k m + get k (metrics ev))%float m) keys m.

(** [for (const key in metrics) metrics[key] /= count] *)
Definition average (count : nat) (m : metrics_t) : metrics_t :=
  fold_left (fun m k => set k (get k m / Binary64.of_nat count)%float m) keys m.

Definition aggregateMetrics (evaluations : list evaluation) : metrics_t :=
  let sums := fold_left accumulate evaluations zeroMetrics in
  let count := length evaluations in
  average count sums.

End Aggregation.

(** ** Dataset download ([download_dataset.js]) *)

Module Download.
Import Scorer.

(** *** [fetchJson]: fetch with retries and linear back-off *)

Section Fetch.
(** The parsed body and the error of a failed attempt; [fetchOnce i] is
    what the [i]-th attempt does: fulfil with the parsed body, or throw
    (a network error, the explicit error for a response that is not
    [ok], or a body that does not parse). *)
Variables (J E : Type).

Inductive attempt : Type :=
| Success (data : J)
| Failure (error : E).

Variable fetchOnce : nat -> attempt.

(** What the caller observes: the [fetch] calls and the waits between
    them, in milliseconds. *)
Inductive event : Type :=
| Fetch
| Sleep (ms : nat).

(** How the promise settles; [Returned None] is [undefined]. *)
Inductive settled : Type :=
| Returned (v : option J)
| Thrown (e : E).

(** The [for] loop from index [i], with [n] iterations left before
    [i < retries] fails. *)
Fixpoint fetchFrom (retries i n : nat) (trace : list event)
    : settled * list event :=
  match n with
  | 0 => (Returned None, trace)
  | S n' =>
      match fetchOnce i with
      | Success data => (Returned (Some data), trace ++ [Fetch])
      | Failure error =>
          if i =? retries - 1 then (Thrown error, trace ++ [Fetch])
          else fetchFrom retries (S i) n'
                 (trace ++ [Fetch; Sleep (1000 * (i + 1))])
      end
  end.

Definition fetchJson (retries : nat) : settled * list event :=
  fetchFrom retries 0 retries [].

End Fetch.

Arguments Success {J E} data.
Arguments Failure {J E} error.
Arguments Returned {J E} v.
Arguments Thrown {J E} e.

(** *** [getRequiredDocIds] *)

(** A [doc_id] read from JSON: absent or [null] ([None]), a string or an
    integer; the empty string and 0 are falsy. *)
Definition truthyId (d : option ident) : bool :=
  match d with
  | Some (IdStr s) => negb (String.eqb s EmptyString)
  | Some (IdNum z) => negb (Z.eqb z 0)
  | None => false
  end.

(** A relevance judgment as stored in [qrels.json]. *)
Record judgment := mkJudgment {
  j_doc_id : option ident
}.

(** [qrels.json] parsed: the query ids in the order [for ... in]
    enumerates them, each with its judgment or JSON [null] ([None]). *)
Definition qrels_t : Type := list (string * option judgment).

(** [Set.prototype.add] on a set kept in insertion order. *)
Definition setAdd (s : list ident) (x : ident) : list ident :=
  if existsb (strict_eq x) s then s else s ++ [x].

(** [if (d) docIds.add(d)] *)
Definition addIfTruthy (docIds : list ident) (d : option ident) : list ident :=
  match d with
  | Some x => if truthyId d then setAdd docIds x else docIds
  | None => docIds
  end.

(** The loop of [getRequiredDocIds]; [rel.doc_id] on [null] raises a
    TypeError. *)
Fixpoint collectDocIds (qrels : qrels_t) (docIds : list ident)
    : completion (list ident) :=
  match qrels with
  | [] => Normal docIds
  | (_, None) :: _ => ThrowTypeError
  | (_, Some rel) :: rest =>
      collectDocIds rest (addIfTruthy docIds (j_doc_id rel))
  end.

(** [Array.from(docIds)] *)
Definition getRequiredDocIds (qrels : qrels_t) : completion (list ident) :=
  collectDocIds qrels [].

End Download.

(** ** Corpus ingestion ([ingest.js]) *)

Module Ingest.
Import Cosine Chunker Scorer Download.

(** *** [loadDocumentIds] *)

(** The loop over the parsed qrels, with [qrels[queryId]?.doc_id]. *)
Fixpoint collectDocIdsSafe (qrels : qrels_t) (docIds : list ident)
    : list ident :=
  match qrels with
  | [] => docIds
  | (_, None) :: rest => collectDocIdsSafe rest docIds
  | (_, Some rel) :: rest =>
      collectDocIdsSafe rest (addIfTruthy docIds (j_doc_id rel))
  end.

Inductive loaded : Type :=
| Ids (docIds : list ident)
| ThrowError (message : string).

(** The two files are given by their parsed contents, [None] when
    [fs.existsSync] answers false. *)
Definition loadDocumentIds (USE_SAMPLE : bool)
    (sampleDocIds : option (list ident)) (qrelsFile : option qrels_t)
    : loaded :=
  if USE_SAMPLE then
    match sampleDocIds with
    | None => ThrowError "Sample subset not found. Run download_dataset.js first."
    | Some ids => Ids ids
    end
  else
    match qrelsFile with
    | None => ThrowError "qrels.json not found. Run download_dataset.js first."
    | Some qrels => Ids (collectDocIdsSafe qrels [])
    end.

(** *** [extractSections] *)

Record section_t := mkSection {
  sec_text : jsval;
  sec_tables : option (list (string * string))
}.

(** [sections] is [None] when the field is absent or not an array. *)
Record doc_t := mkDoc {
  abstract : jsval;
  title : jsval;
  sections : option (list section_t)
}.

Record metadata_t := mkMetadata {
  md_type : string;
  md_title : string
}.

Record extracted := mkExtracted {
  sectionId : Z;
  ex_text : string;
  metadata : metadata_t
}.

(** [v || ''] *)
Definition orEmpty (v : jsval) : string :=
  match v with
  | JString s => s
  | _ => EmptyString
  end.

(** A truthy string field. *)
Definition truthyString (v : jsval) : option string :=
  match v with
  | JString EmptyString => None
  | JString s => Some s
  | _ => None
  end.

Definition newline : string := String (ascii_of_nat 10) EmptyString.

(** [text += `\n\nTable ${tableId}:\n${tableContent}`] over the entries. *)
Definition withTables (text : string) (tables : option (list (string * string)))
    : string :=
  match tables with
  | None => text
  | Some entries =>
      fold_left
        (fun text entry =>
           (text ++ newline ++ newline ++ "Table " ++ fst entry ++ ":"
                 ++ newline ++ snd entry)%string)
        entries text
  end.

Section Extract.

(** [String.prototype.trim]. *)
Variable trim : string -> string.

(** What one call of the [forEach] callback pushes. *)
Definition sectionEntry (doc : doc_t) (idx : nat) (section : section_t)
    : list extracted :=
  match truthyString (sec_text section) with
  | None => []
  | Some text0 =>
      match trim text0 with
      | EmptyString => []
      | _ =>
          let text := withTables text0 (sec_tables section) in
          [mkExtracted (Z.of_nat idx) (trim text)
                       (mkMetadata "section" (orEmpty (title doc)))]
      end
  end.

Fixpoint forEachFrom (doc : doc_t) (idx : nat) (l : list section_t)
    : list extracted :=
  match l with
  | [] => []
  | section :: rest =>
      sectionEntry doc idx section ++ forEachFrom doc (S idx) rest
  end.

Definition extractSections (doc : doc_t) : list extracted :=
  let fromAbstract :=
    match truthyString (abstract doc) with
    | Some text =>
        [mkExtracted (-1) text (mkMetadata "abstract" (orEmpty (title doc)))]
    | None => []
    end in
  fromAbstract ++
  match sections doc with
  | Some l => forEachFrom doc 0 l
  | None => []
  end.

End Extract.

(** *** [chunkSection] and [processDocument] *)

(** The literal [0.6] denotes the binary64 value [0x1.3333333333333p-1]. *)
Definition sectionOptions : options :=
  mkOptions 0x1.3333333333333p-1%float 400 100.

Record payload_t := mkPayload {
  doc_id : ident;
  section_id : Z;
  chunk_id : nat;
  text : string;
  p_title : string;
  p_type : string
}.

(** Point identifiers are binary64 numbers. *)
Record point := mkPoint {
  id : float;
  vector : Cosine.vector;
  payload : payload_t
}.

(** [text.length].  A string is held as the bytes of its UTF-8 encoding
    (a lone surrogate encoded like any code point of three bytes), and
    its length is counted in UTF-16 code units: one for a code point
    below U+10000, that is for a byte below 0x80 or a lead byte 0xC0 to
    0xEF, two for a lead byte 0xF0 and above, none for the continuation
    bytes 0x80 to 0xBF. *)
Definition codeUnits (c : ascii) : nat :=
  let b := nat_of_ascii c in
  if b <? 128 then 1 else if b <? 192 then 0 else if b <? 240 then 1 else 2.

Fixpoint utf16Length (text : string) : nat :=
  match text with
  | EmptyString => 0
  | String c rest => codeUnits c + utf16Length rest
  end.

Section Process.

Variable splitIntoSentences : string -> list string.
Variable encode : string -> list nat.
Variable embedText : string -> option Cosine.vector.
Variable trim : string -> string.

(** The short-circuit for short texts, and the [catch] that turns a
    rejected chunking into the whole section. *)
Definition chunkSection (text : string) (maxChunkSize : nat)
    : Eff (outcome (list string)) :=
  if utf16Length text <? maxChunkSize * 2 then ret (Fulfilled [text])
  else
    let! settled :=
      semanticChunkWithLimits splitIntoSentences encode embedText
                              text sectionOptions in
    match settled with
    | Fulfilled chunks => ret (Fulfilled chunks)
    | Rejected => ret (Fulfilled [text])
    end.

(** The inner loop, from [chunkIdx] on: one embedding call and one point
    per chunk; [pointId++] is a binary64 addition. *)
Fixpoint embedChunks (docId : ident) (section : extracted)
    (chunks : list string) (chunkIdx : nat) (pointId : float)
    (points : list point) : Eff (outcome (list point * float)) :=
  match chunks with
  | [] => ret (Fulfilled (points, pointId))
  | chunkText :: rest =>
      let! embedding := invoke embedText chunkText in
      match embedding with
      | None => ret Rejected
      | Some v =>
          embedChunks docId section rest (S chunkIdx) (Binary64.incr pointId)
            (points ++
             [mkPoint pointId v
                (mkPayload docId (sectionId section) chunkIdx chunkText
                           (md_title (metadata section))
                           (md_type (metadata section)))])
      end
  end.

(** The outer loop over the extracted sections. *)
Fixpoint processSections (docId : ident) (sections : list extracted)
    (pointId : float) (points : list point)
    : Eff (outcome (list point * float)) :=
  match sections with
  | [] => ret (Fulfilled (points, pointId))
  | section :: rest =>
      let! chunked := chunkSection (ex_text section) 500 in
      match chunked with
      | Rejected => ret Rejected
      | Fulfilled chunks =>
          let! embedded := embedChunks docId section chunks 0 pointId points in
          match embedded with
          | Rejected => ret Rejected
          | Fulfilled (points', pointId') =>
              processSections docId rest pointId' points'
          end
      end
  end.

(** Returns [{ points, nextPointId }]. *)
Definition processDocument (docId : ident) (doc : doc_t)
    (startingPointId : float) : Eff (outcome (list point * float)) :=
  processSections docId (extractSections trim doc) startingPointId [].

End Process.

End Ingest.

(** ** More stand-ins and vocabulary *)

Module Standins.
Import Cosine Chunker Scorer Download Ingest.

(** An embedding that fulfils with a zero vector for every sentence. *)
Definition zeroEmbed (s : string) : option Cosine.vector :=
  Some [0%float; 0%float].

(** A server that answers the third request (index 2), and one that
    never answers. *)
Definition thirdTime (i : nat) : attempt string string :=
  if i =? 2 then Success "{}"%string else Failure "HTTP 503"%string.

Definition down (i : nat) : attempt string string :=
  Failure ("HTTP 50" ++ String (ascii_of_nat (48 + i)) EmptyString)%string.

(** Two typed evaluations with safe keys. *)
Definition typed (type : string) (x : Number.number) : evaluation :=
  mkEvaluation "q" (JString type) (JString "arxiv")
    (mkMetrics x x x x x x x x x x).

End Standins.

Module CosineMoreSpec.

(** NaN, on the specification side of a binary64 value. *)
Definition isNaN (x : float) : Prop := Prim2SF x = S754_nan.

End CosineMoreSpec.

Module ChunkerMoreSpec.
Import Cosine Chunker ChunkerSpec.

Section Loop.
Variable encode : string -> list nat.
Variable opts : options.
Variable sentences : list string.
Variable embs : list vector.

(** From a buffer that holds the first [n] sentences, every iteration
    appends: nothing makes the loop split. *)
Definition neverSplits : Prop :=
  forall n, 0 < n < length sentences ->
    body encode (fun g => g) opts sentences embs
         (mkState [] (firstn n sentences)
                  (groupTokens encode (firstn n sentences))) n
    = mkState [] (firstn (S n) sentences)
              (groupTokens encode (firstn (S n) sentences)).

End Loop.

End ChunkerMoreSpec.

Module ScorerMoreSpec.
Import Number Scorer ScorerSpec.


Definition typeKey (ev : evaluation) : string := orUnknown (queryType ev).
Definition sourceKey (ev : evaluation) : string := orUnknown (querySource ev).

(** The evaluations whose key is [k], in input order. *)
Definition membersOf (key : evaluation -> string) (k : string)
    (evs : list evaluation) : list evaluation :=
  List.filter (fun ev => String.eqb (key ev) k) evs.

(** The bucket a grouping holds for [k]: none when no evaluation has
    the key. *)
Definition bucketOf (key : evaluation -> string) (k : string)
    (evs : list evaluation) : option (list evaluation) :=
  match membersOf key k evs with
  | [] => None
  | m => Some m
  end.

(** One of the grouping keys of the evaluation names a member of
    [Object.prototype]. *)
Definition unsafeKeys (ev : evaluation) : Prop :=
  inherited (typeKey ev) = true \/ inherited (sourceKey ev) = true.

End ScorerMoreSpec.

Module DownloadSpec.
Import Scorer Download.

(** The trace of [j] failed attempts from index [i] on: after the
    attempt of index [k], a wait of [1000 (k + 1)] ms. *)
Definition backoffFrom (i j : nat) : list event :=
  flat_map (fun k => [Fetch; Sleep (1000 * (k + 1))]) (seq i j).

Definition waited (trace : list event) : nat :=
  fold_right (fun ev n => match ev with Sleep ms => ms + n | Fetch => n end)
             0 trace.

Definition fetches (trace : list event) : nat :=
  fold_right (fun ev n => match ev with Fetch => S n | Sleep _ => n end)
             0 trace.

(** [d] is the truthy [doc_id] of some judgment of [qrels]. *)
Definition judged (qrels : qrels_t) (d : ident) : Prop :=
  exists q rel, In (q, Some rel) qrels /\ j_doc_id rel = Some d
                /\ truthyId (Some d) = true.

Definition hasNull (qrels : qrels_t) : Prop := exists q, In (q, None) qrels.

Definition nonNull (entry : string * option judgment) : bool :=
  match snd entry with Some _ => true | None => false end.

End DownloadSpec.

Module Binary64Spec.

(** The binary64 representation of the integer [q], for [q < 2 ^ 53]:
    a mantissa of 53 bits. *)
Definition canonInt (q : positive) : spec_float :=
  let d := Zpos (digits2_pos q) in
  S754_finite false (Z.to_pos (Zpos q * 2 ^ (53 - d))) (d - 53).

End Binary64Spec.

Module AggregationSpec.
Import Scorer Aggregation.

(** The values of one metric over the evaluations, and their sum as the
    loop accumulates it: from 0, in list order. *)
Definition column (k : key) (evs : list evaluation) : list float :=
  map (fun ev => get k (metrics ev)) evs.

Definition total (l : list float) : float :=
  fold_left (fun s x => (s + x)%float) l 0%float.

Definition allNaN : metrics_t :=
  mkMetrics nan nan nan nan nan nan nan nan nan nan.

Definition scored (x : float) : evaluation :=
  mkEvaluation "q" (JString "extractive") (JString "arxiv")
    (mkMetrics x x x x x x x x x x).

End AggregationSpec.

Module SegmenterSpec.








End SegmenterSpec.

Module IngestSpec.
Import Scorer Ingest.

(** What identifies a chunk of a document in the index. *)
Definition chunkKey (p : point) : Z * nat :=
  (section_id (payload p), chunk_id (payload p)).

(** The identifiers the loop hands out to [n] points from [pointId] on,
    and the counter after them. *)
Fixpoint idsFrom (pointId : float) (n : nat) : list float :=
  match n with
  | 0 => []
  | S n' => pointId :: idsFrom (Binary64.incr pointId) n'
  end.

Fixpoint advance (pointId : float) (n : nat) : float :=
  match n with
  | 0 => pointId
  | S n' => advance (Binary64.incr pointId) n'
  end.

(** The integers [start], [start + 1], ..., [start + n - 1]. *)
Definition consecutive (start : Z) (n : nat) : list float :=
  map (fun i => Binary64.of_Z (start + Z.of_nat i)) (seq 0 n).

(** A document with an abstract and two sections, the second one blank. *)
Definition sampleDoc : doc_t :=
  mkDoc (JString "Hi. Nine char.") (JString "T")
        (Some [mkSection (JString "One.") None; mkSection (JString "") None;
               mkSection (JString "Two.") None]).

End IngestSpec.

(** * Properties *)

(** ** Cosine similarity *)

Module CosineFacts.
Import Cosine CosineSpec.

Lemma at_index_app pre y b : at_index (pre ++ y :: b) (length pre) = y.
Proof. unfold at_index. induction pre; simpl; auto. Qed.

Lemma loop_same_length a : forall pre b s,
  length a = length b ->
  loop (pre ++ b) s (length pre) a =
  mkAcc (fold_left (fun s p => (s + fst p * snd p)%float) (combine a b) (dot s))
        (fold_left (fun s x => (s + x * x)%float) a (normA s))
        (fold_left (fun s x => (s + x * x)%float) b (normB s)).
Proof.
  induction a as [|x a IH]; intros pre b s Hlen; destruct b as [|y b];
    try discriminate.
  - destruct s; reflexivity.
  - cbn [loop]. unfold body. rewrite at_index_app.
    replace (pre ++ y :: b) with ((pre ++ [y]) ++ b)
      by (rewrite <- app_assoc; reflexivity).
    replace (S (length pre)) with (length (pre ++ [y]))
      by (rewrite length_app; simpl; lia).
    rewrite IH by (simpl in Hlen; lia). reflexivity.
Qed.

Lemma loop_sums a b :
  length a = length b ->
  loop b acc0 0 a = mkAcc (dotProduct a b) (sumSquares a) (sumSquares b).
Proof.
  intros Hlen.
  change (loop b acc0 0 a) with (loop ([] ++ b) acc0 (length (@nil float)) a).
  rewrite (loop_same_length a [] b acc0 Hlen). reflexivity.
Qed.

Lemma cosine_same_length a b :
  length a = length b -> cosineSimilarity a b = cosineSpec a b.
Proof.
  intros Hlen. unfold cosineSimilarity. rewrite (loop_sums a b Hlen). reflexivity.
Qed.

(** *** Division by a zero norm, through the specification of binary64 *)

Lemma is_nan_SF f : Prim2SF f = S754_nan -> PrimFloat.is_nan f = true.
Proof.
  intros H. unfold PrimFloat.is_nan. rewrite FloatAxioms.eqb_spec, H. reflexivity.
Qed.

Lemma is_infinity_SF f s :
  Prim2SF f = S754_infinity s -> PrimFloat.is_infinity f = true.
Proof.
  intros H. unfold PrimFloat.is_infinity.
  rewrite FloatAxioms.eqb_spec, FloatAxioms.abs_spec, H. reflexivity.
Qed.

Lemma zero_is_zero : zeroOrNaN (Prim2SF 0%float).
Proof. left. exists false. reflexivity. Qed.

(** Splits a [zeroOrNaN] hypothesis into its two classes, then the
    remaining operand [t] into its four, and reads the result off the
    table of the operation. *)
Ltac by_class H :=
  destruct H as [[? ->] | ->]; simpl; unfold zeroOrNaN; eauto.
Ltac by_classes H t :=
  destruct H as [[? ->] | ->]; destruct (Prim2SF t); simpl;
  unfold zeroOrNaN; eauto.

Lemma mul_zero_l x t :
  zeroOrNaN (Prim2SF x) -> zeroOrNaN (Prim2SF (x * t)%float).
Proof.
  intros Hx. rewrite FloatAxioms.mul_spec. unfold SF64mul. by_classes Hx t.
Qed.

Lemma mul_zero_r x t :
  zeroOrNaN (Prim2SF x) -> zeroOrNaN (Prim2SF (t * x)%float).
Proof.
  intros Hx. rewrite FloatAxioms.mul_spec. unfold SF64mul. by_classes Hx t.
Qed.

Lemma add_zero x y :
  zeroOrNaN (Prim2SF x) -> zeroOrNaN (Prim2SF y) ->
  zeroOrNaN (Prim2SF (x + y)%float).
Proof.
  intros Hx Hy. rewrite FloatAxioms.add_spec. unfold SF64add.
  destruct Hx as [[[|] ->] | ->]; destruct Hy as [[[|] ->] | ->];
    simpl; unfold zeroOrNaN; eauto.
Qed.

Lemma sqrt_zero x :
  zeroOrNaN (Prim2SF x) -> zeroOrNaN (Prim2SF (PrimFloat.sqrt x)).
Proof.
  intros Hx. rewrite FloatAxioms.sqrt_spec. unfold SF64sqrt. by_class Hx.
Qed.

Lemma div_zero_den d x :
  zeroOrNaN (Prim2SF x) ->
  Prim2SF (d / x)%float = S754_nan
  \/ exists s, Prim2SF (d / x)%float = S754_infinity s.
Proof.
  intros Hx. rewrite FloatAxioms.div_spec. unfold SF64div. by_classes Hx d.
Qed.

Lemma div_zero_zero d x :
  zeroOrNaN (Prim2SF d) -> zeroOrNaN (Prim2SF x) ->
  Prim2SF (d / x)%float = S754_nan.
Proof.
  intros Hd Hx. rewrite FloatAxioms.div_spec. unfold SF64div.
  destruct Hd as [[s ->] | ->]; destruct Hx as [[s' ->] | ->]; reflexivity.
Qed.

(** With a computed squared norm of zero the denominator is zero (or
    NaN), and the quotient is NaN or an infinity. *)
Lemma zero_norm_divides_by_zero a b :
  normA (loop b acc0 0 a) = 0%float \/ normB (loop b acc0 0 a) = 0%float ->
  PrimFloat.is_nan (cosineSimilarity a b) = true
  \/ PrimFloat.is_infinity (cosineSimilarity a b) = true.
Proof.
  intros Hzero. unfold cosineSimilarity.
  set (s := loop b acc0 0 a) in *.
  assert (Hden : zeroOrNaN
            (Prim2SF (PrimFloat.sqrt (normA s) * PrimFloat.sqrt (normB s))%float)).
  { destruct Hzero as [-> | ->].
    - apply mul_zero_l. left. exists false. reflexivity.
    - apply mul_zero_r. left. exists false. reflexivity. }
  destruct (div_zero_den (dot s) _ Hden) as [H | [sg H]].
  - left. now apply is_nan_SF.
  - right. now apply (is_infinity_SF _ sg).
Qed.

Lemma loop_zero_vector b a : forall s i,
  Forall (fun x => x = 0%float) a ->
  zeroOrNaN (Prim2SF (dot s)) -> zeroOrNaN (Prim2SF (normA s)) ->
  zeroOrNaN (Prim2SF (dot (loop b s i a)))
  /\ zeroOrNaN (Prim2SF (normA (loop b s i a))).
Proof.
  induction a as [|x a IH]; intros s i Hall Hd Hn; cbn [loop]; [auto|].
  inversion Hall as [|? ? -> Hrest]; subst.
  apply IH; [exact Hrest | |]; cbn [body dot normA].
  - apply add_zero; [exact Hd | apply mul_zero_l, zero_is_zero].
  - apply add_zero; [exact Hn | apply mul_zero_l, zero_is_zero].
Qed.

(** A zero vector [a] gives NaN against every [b]. *)
Lemma zero_vector_gives_NaN a b :
  Forall (fun x => x = 0%float) a ->
  PrimFloat.is_nan (cosineSimilarity a b) = true.
Proof.
  intros Hall. unfold cosineSimilarity.
  destruct (loop_zero_vector b a acc0 0 Hall zero_is_zero zero_is_zero)
    as [Hd Hn].
  apply is_nan_SF, div_zero_zero; [exact Hd|].
  apply mul_zero_l, sqrt_zero, Hn.
Qed.

(** C6, as the code has it: for vectors of one length, [cosineSimilarity]
    is the binary64 quotient of the dot product by the product of the
    Euclidean norms; there is no guard for a zero norm, so when the
    squared norm of either vector is zero the result is NaN or an
    infinity, and it is NaN whenever [a] is a zero vector: never the 0
    the specification defines. *)
Theorem cosine_quotient_zero_norm a b :
  length a = length b ->
  cosineSimilarity a b = cosineSpec a b
  /\ (sumSquares a = 0%float \/ sumSquares b = 0%float ->
      PrimFloat.is_nan (cosineSimilarity a b) = true
      \/ PrimFloat.is_infinity (cosineSimilarity a b) = true)
  /\ (Forall (fun x => x = 0%float) a ->
      PrimFloat.is_nan (cosineSimilarity a b) = true).
Proof.
  intros Hlen. split; [now apply cosine_same_length|]. split.
  - intros Hzero. apply zero_norm_divides_by_zero.
    rewrite (loop_sums a b Hlen). exact Hzero.
  - apply zero_vector_gives_NaN.
Qed.

Lemma cosine_quotient_zero_norm_witness :
  length [0%float; 0%float] = length [3%float; 4%float]
  /\ cosineSimilarity [0%float; 0%float] [3%float; 4%float]
     = cosineSpec [0%float; 0%float] [3%float; 4%float]
  /\ PrimFloat.is_nan (cosineSimilarity [0%float; 0%float] [3%float; 4%float])
     = true.
Proof.
  split; [reflexivity|].
  destruct (cosine_quotient_zero_norm [0%float; 0%float] [3%float; 4%float])
    as (Hq & _ & Hnan); [reflexivity|].
  split; [exact Hq | apply Hnan; repeat constructor].
Defined.

(** C6, as the specification states it, fails: a zero vector has zero
    norm, and its similarity to [(3, 4)] is NaN, not 0. *)
Lemma zero_norm_counterexample :
  norm [0%float; 0%float] = 0%float
  /\ PrimFloat.is_nan (cosineSimilarity [0%float; 0%float] [3%float; 4%float])
     = true
  /\ cosineSimilarity [0%float; 0%float] [3%float; 4%float] <> 0%float.
Proof.
  split; [reflexivity|]. split; [vm_compute; reflexivity|].
  intros H.
  assert (Hnan : PrimFloat.is_nan
            (cosineSimilarity [0%float; 0%float] [3%float; 4%float]) = true)
    by (vm_compute; reflexivity).
  rewrite H in Hnan. discriminate Hnan.
Qed.

End CosineFacts.

(** ** The chunker *)

Module ChunkerFacts.
Import Cosine Chunker ChunkerSpec.

Section WithCollaborators.
Variable splitIntoSentences : string -> list string.
Variable encode : string -> list nat.
Variable embedFn : string -> option vector.

Lemma groupTokens_snoc p s :
  groupTokens encode (p ++ [s]) = groupTokens encode p + tokens encode s.
Proof. induction p as [|x p IH]; simpl; [lia | rewrite IH; lia]. Qed.

(** *** The embedding calls *)

Lemma mapE_invoke sentences log :
  mapE (invoke embedFn) sentences log
  = (map embedFn sentences, log ++ sentences).
Proof.
  revert log. induction sentences as [|s rest IH]; intros log; simpl.
  - unfold ret. now rewrite app_nil_r.
  - unfold bind, invoke at 1. rewrite IH. unfold ret.
    now rewrite <- app_assoc.
Qed.

Lemma promiseAll_rejected sentences :
  promiseAll (map embedFn sentences) = None ->
  exists s, In s sentences /\ embedFn s = None.
Proof.
  induction sentences as [|s rest IH]; simpl; [discriminate|].
  destruct (embedFn s) as [v|] eqn:Hs.
  - destruct (promiseAll (map embedFn rest)); [discriminate|].
    intros _. destruct IH as (s' & Hin & Hs'); [reflexivity|]. eauto.
  - intros _. eauto.
Qed.

Lemma promiseAll_fulfilled sentences embs :
  promiseAll (map embedFn sentences) = Some embs ->
  Forall (fun s => embedFn s <> None) sentences.
Proof.
  revert embs. induction sentences as [|s rest IH]; intros embs; simpl.
  - constructor.
  - destruct (embedFn s) as [v|] eqn:Hs; [|discriminate].
    destruct (promiseAll (map embedFn rest)) as [l|]; [|discriminate].
    intros _. constructor; [congruence | now apply (IH l)].
Qed.

Lemma chunkWith_run {C} (emit : list string -> C) text opts :
  chunkWith splitIntoSentences encode embedFn emit text opts [] =
  (match promiseAll (map embedFn (splitIntoSentences text)) with
   | None => Rejected
   | Some embs =>
       Fulfilled (chunkLoop encode emit opts (splitIntoSentences text) embs)
   end, splitIntoSentences text).
Proof.
  unfold chunkWith, bind. rewrite mapE_invoke. simpl.
  destruct (promiseAll _); reflexivity.
Qed.

(** *** The loop *)

Section Loop.
Variable opts : options.
Variable sentences : list string.
Variable embs : list vector.

Local Abbreviation runTo := (runTo encode opts sentences embs).
Local Abbreviation step := (body encode).
Local Abbreviation invariant := (invariant encode opts sentences).
Local Abbreviation capped := (capped encode opts).

Lemma runTo_S {C} (emit : list string -> C) n :
  runTo emit (S n) = step emit opts sentences embs (runTo emit n) n.
Proof.
  unfold ChunkerSpec.runTo. rewrite seq_S, fold_left_app. reflexivity.
Qed.

Lemma body_mirrors {C} (emit : list string -> C) st gs i :
  mirrors emit st gs ->
  mirrors emit (step emit opts sentences embs st i)
               (step (fun g => g) opts sentences embs gs i).
Proof.
  intros (Hc & Hs & Ht). unfold body. rewrite Hs, Ht.
  destruct (currentSentences gs) as [|s0 cur].
  - repeat split; simpl; auto.
  - match goal with |- context [if ?c then _ else _] => destruct c end.
    + repeat split; simpl; auto. rewrite Hc, map_app. reflexivity.
    + repeat split; simpl; auto.
Qed.

Lemma runTo_mirrors {C} (emit : list string -> C) n :
  mirrors emit (runTo emit n) (runTo (fun g => g) n).
Proof.
  induction n as [|n IH].
  - repeat split.
  - rewrite !runTo_S. now apply body_mirrors.
Qed.

(** The chunks are the groups, joined. *)
Lemma chunkLoop_map {C} (emit : list string -> C) :
  chunkLoop encode emit opts sentences embs
  = map emit (chunkLoop encode (fun g => g) opts sentences embs).
Proof.
  unfold chunkLoop, run. fold (runTo emit (length sentences)).
  fold (runTo (fun g : list string => g) (length sentences)).
  destruct (runTo_mirrors emit (length sentences)) as (Hc & Hs & _).
  unfold finish. rewrite Hs, Hc.
  set (gs := runTo (fun g : list string => g) (length sentences)).
  destruct (currentSentences gs); [reflexivity|].
  rewrite map_app. reflexivity.
Qed.

Lemma firstn_snoc_nth {A} (l : list A) n d :
  n < length l -> firstn (S n) l = firstn n l ++ [nth n l d].
Proof.
  revert n. induction l as [|x l IH]; intros n Hn; simpl in Hn; [lia|].
  destruct n as [|n]; [reflexivity|].
  simpl. f_equal. apply IH. lia.
Qed.

Lemma capped_single s : capped [s].
Proof.
  destruct (le_lt_dec (tokens encode s) (maxTokens opts)) as [Hle | Hgt].
  - left. simpl. lia.
  - right. left. eauto.
Qed.

Lemma body_invariant n gs :
  n < length sentences -> invariant n gs ->
  invariant (S n) (step (fun g => g) opts sentences embs gs n).
Proof.
  intros Hn [Hpart Htok Hne Hstart Hcap Hcur].
  pose proof (firstn_snoc_nth sentences n EmptyString Hn) as Hnext.
  rewrite <- Hpart in Hnext. clear Hpart.
  unfold body. set (sent := nth n sentences EmptyString) in *.
  destruct (currentSentences gs) as [|s0 cur] eqn:Hbuf.
  - constructor; cbn [chunks currentSentences currentTokens app].
    + rewrite Hnext, app_nil_r. reflexivity.
    + rewrite Htok. simpl. lia.
    + exact Hne.
    + discriminate.
    + exact Hcap.
    + apply capped_single.
  - set (similar := (_ <? threshold opts)%float).
    destruct ((similar
               || (maxTokens opts <? currentTokens gs + tokens encode sent))
              && (minTokens opts <=? currentTokens gs)) eqn:Hsplit;
      constructor; cbn [chunks currentSentences currentTokens].
    + rewrite Hnext, concat_app. simpl.
      rewrite app_nil_r, <- app_assoc. reflexivity.
    + simpl. lia.
    + apply Forall_app. split; [exact Hne|].
      constructor; [discriminate | constructor].
    + discriminate.
    + apply Forall_app. split; [exact Hcap|].
      constructor; [exact Hcur | constructor].
    + apply capped_single.
    + rewrite Hnext, <- app_assoc. reflexivity.
    + rewrite Htok, groupTokens_snoc. reflexivity.
    + exact Hne.
    + discriminate.
    + exact Hcap.
    + apply andb_false_iff in Hsplit as [Hkeep | Hmin].
      * left. apply orb_false_iff in Hkeep as [_ Hfit].
        apply Nat.ltb_ge in Hfit.
        rewrite groupTokens_snoc, <- Htok. exact Hfit.
      * right. right. exists (s0 :: cur), sent.
        apply Nat.leb_gt in Hmin. rewrite <- Htok.
        split; [reflexivity|]. split; [discriminate | exact Hmin].
Qed.

Lemma runTo_invariant n :
  n <= length sentences -> invariant n (runTo (fun g => g) n).
Proof.
  induction n as [|n IH]; intros Hn.
  - constructor; simpl; auto; try lia. left. simpl. lia.
  - rewrite runTo_S. apply body_invariant; [lia | apply IH; lia].
Qed.

Lemma chunkLoop_groups :
  let groups := chunkLoop encode (fun g => g) opts sentences embs in
  concat groups = sentences
  /\ Forall (fun g => g <> []) groups
  /\ Forall capped groups.
Proof.
  unfold chunkLoop, run.
  fold (runTo (fun g : list string => g) (length sentences)).
  destruct (runTo_invariant (length sentences) (le_n _))
    as [Hpart _ Hne _ Hcap Hcur].
  rewrite firstn_all in Hpart. unfold finish.
  set (gs := runTo (fun g : list string => g) (length sentences)) in *.
  destruct (currentSentences gs) as [|s0 cur] eqn:Hbuf; simpl.
  - rewrite app_nil_r in Hpart. auto.
  - rewrite concat_app. simpl. rewrite app_nil_r.
    repeat split; [exact Hpart | |].
    + apply Forall_app. split; [exact Hne|].
      constructor; [discriminate | constructor].
    + apply Forall_app. split; [exact Hcap|].
      constructor; [exact Hcur | constructor].
Qed.

End Loop.

Local Abbreviation semanticChunkWithLimits :=
  (semanticChunkWithLimits splitIntoSentences encode embedFn).
Local Abbreviation semanticChunkGroups :=
  (semanticChunkGroups splitIntoSentences encode embedFn).

(** C1, as the code has it: every chunk is the join of a group of
    sentences whose token total is at most [maxTokens], unless the group
    is a single sentence that alone exceeds [maxTokens], or its last
    sentence was appended while the sentences before it totalled fewer
    than [minTokens] tokens (the [minTokens] guard withholds the split).
    The call rejects only when an embedding call rejects. *)
Theorem chunks_capped_unless_below_minTokens text opts :
  match fst (semanticChunkWithLimits text opts []),
        fst (semanticChunkGroups text opts []) with
  | Fulfilled chunks, Fulfilled groups =>
      chunks = map join groups /\ Forall (capped encode opts) groups
  | Rejected, Rejected =>
      exists s, In s (splitIntoSentences text) /\ embedFn s = None
  | _, _ => False
  end.
Proof.
  unfold Chunker.semanticChunkWithLimits, Chunker.semanticChunkGroups.
  rewrite !chunkWith_run. cbn [fst].
  destruct (promiseAll _) as [embs|] eqn:Hall.
  - split; [apply chunkLoop_map|]. apply chunkLoop_groups.
  - now apply promiseAll_rejected.
Qed.

(** C2: the returned chunks are the joins of non-empty groups of
    sentences whose concatenation, in chunk order, is exactly the
    sequence [splitIntoSentences] produced; the call rejects only when
    an embedding call rejects. *)
Theorem chunks_partition_sentences text opts :
  match fst (semanticChunkWithLimits text opts []) with
  | Fulfilled chunks =>
      exists groups,
        chunks = map join groups
        /\ concat groups = splitIntoSentences text
        /\ Forall (fun g => g <> []) groups
  | Rejected =>
      exists s, In s (splitIntoSentences text) /\ embedFn s = None
  end.
Proof.
  unfold Chunker.semanticChunkWithLimits. rewrite chunkWith_run. cbn [fst].
  destruct (promiseAll _) as [embs|] eqn:Hall.
  - exists (chunkLoop encode (fun g => g) opts (splitIntoSentences text) embs).
    split; [apply chunkLoop_map|].
    destruct (chunkLoop_groups opts (splitIntoSentences text) embs)
      as (Hcat & Hne & _).
    split; assumption.
  - now apply promiseAll_rejected.
Qed.

(** C5, as the code has it: the options are never validated.  Whatever
    [minTokens] and [maxTokens] are, the embedding function is invoked
    once per sentence, in order, and the call fulfils with chunks unless
    one of those invocations rejects. *)
Theorem embeds_every_sentence_unvalidated text opts :
  snd (semanticChunkWithLimits text opts []) = splitIntoSentences text
  /\ (fst (semanticChunkWithLimits text opts []) = Rejected <->
      exists s, In s (splitIntoSentences text) /\ embedFn s = None).
Proof.
  unfold Chunker.semanticChunkWithLimits. rewrite chunkWith_run. cbn [fst snd].
  split; [reflexivity|].
  destruct (promiseAll _) as [embs|] eqn:Hall.
  - split; [discriminate|]. intros (s & Hin & Hs).
    apply promiseAll_fulfilled in Hall.
    rewrite List.Forall_forall in Hall. now destruct (Hall s Hin).
  - split; [|reflexivity]. intros _. now apply promiseAll_rejected.
Qed.



End WithCollaborators.



(** C1, as the specification states it, fails: with [maxTokens = 10] and
    [minTokens = 5], a 3-token sentence followed by a 10-token one makes
    a single chunk of two sentences and 13 tokens (14 when the joined
    string is tokenized), although neither sentence exceeds the limit. *)
Lemma hard_cap_counterexample :
  minTokens Toy.tight <= maxTokens Toy.tight
  /\ Toy.groups "Hi. Nine char." Toy.tight []
     = (Fulfilled [["Hi."; "Nine char."]], ["Hi."; "Nine char."])
  /\ Toy.chunk "Hi. Nine char." Toy.tight []
     = (Fulfilled ["Hi. Nine char."], ["Hi."; "Nine char."])
  /\ groupTokens Toy.encode ["Hi."; "Nine char."] = 13
  /\ maxTokens Toy.tight < groupTokens Toy.encode ["Hi."; "Nine char."]
  /\ maxTokens Toy.tight < tokens Toy.encode "Hi. Nine char."
  /\ tokens Toy.encode "Hi." <= maxTokens Toy.tight
  /\ tokens Toy.encode "Nine char." <= maxTokens Toy.tight.
Proof.
  split; [vm_compute; lia|].
  repeat split; try (vm_compute; reflexivity); vm_compute; lia.
Qed.

(** C5, as the specification states it, fails: with [minTokens = 2] above
    [maxTokens = 1] the call fulfils with chunks, after invoking the
    embedding function on both sentences. *)
Lemma inverted_limits_counterexample :
  maxTokens Toy.inverted < minTokens Toy.inverted
  /\ Toy.chunk "Hi. Nine char." Toy.inverted []
     = (Fulfilled ["Hi."; "Nine char."], ["Hi."; "Nine char."]).
Proof. split; [vm_compute; lia | vm_compute; reflexivity]. Qed.

End ChunkerFacts.

(** ** The scorer *)

Module ScorerFacts.
Import Number Scorer ScorerSpec.

(** *** Arithmetic of the metric values *)

Lemma is_zero_of_nat k :
  is_zero (Q2Qc (inject_Z (Z.of_nat k)))
  = match k with 0 => true | S _ => false end.
Proof.
  unfold is_zero. simpl this. rewrite inject_Z_Qred.
  destruct k as [|k]; [reflexivity|].
  apply not_true_is_false. intros H%Qeq_bool_eq.
  unfold Qeq in H. simpl in H. lia.
Qed.

Lemma div_of_nat n k :
  0 < k ->
  div (of_nat n) (of_nat k) = Fin (Q2Qc (Z.of_nat n # Pos.of_nat k)).
Proof.
  intros Hk. unfold div, of_nat, of_Z.
  rewrite is_zero_of_nat. destruct k as [|k]; [lia|].
  f_equal. apply Qc_is_canon.
  unfold Qcdiv, Qcmult, Qcinv. simpl this.
  rewrite !Qred_correct, Qmake_Qdiv.
  replace (Z.of_nat (S k)) with (Z.pos (Pos.of_nat (S k)))
    by (rewrite <- Pos.of_nat_succ; reflexivity).
  reflexivity.
Qed.

Lemma recip_fin i : recip i = Fin (Q2Qc (1 # Pos.of_nat (i + 1))).
Proof. unfold recip. rewrite div_of_nat; [reflexivity | lia]. Qed.

Lemma geb_recip i j : i <= j -> geb (recip i) (recip j) = true.
Proof.
  intros Hij. rewrite !recip_fin. unfold geb. simpl this.
  apply Qle_bool_iff. apply Qred_le. unfold Qle. simpl. lia.
Qed.

Lemma geb_recip_zero i : geb (recip i) (of_nat 0) = true.
Proof.
  rewrite recip_fin. unfold geb, of_nat, of_Z. simpl this.
  apply Qle_bool_iff. apply Qred_le. unfold Qle. simpl. lia.
Qed.

Lemma geb_refl_fin q : geb (Fin q) (Fin q) = true.
Proof. apply Qle_bool_iff. apply Qle_refl. Qed.

(** *** Reciprocal ranks *)

(** A reciprocal rank computed from index [i] on is 0 or the reciprocal
    of a rank no earlier than [i]. *)
Lemma reciprocalRankFrom_cases matches i results qrel :
  reciprocalRankFrom matches i results qrel = of_nat 0
  \/ exists j, i <= j /\ reciprocalRankFrom matches i results qrel = recip j.
Proof.
  revert i.
  induction results as [|r rest IH]; intros i; cbn [reciprocalRankFrom].
  - now left.
  - destruct (matches r qrel).
    + right. exists i. split; [lia | reflexivity].
    + destruct (IH (S i)) as [H | (j & Hj & H)]; [now left |].
      right. exists j. split; [lia | exact H].
Qed.

Lemma isRelevant_isDocumentMatch r qrel :
  isRelevant r qrel = true -> isDocumentMatch r qrel = true.
Proof.
  unfold isRelevant, isDocumentMatch. intros H.
  apply andb_true_iff in H. tauto.
Qed.

Lemma docRank_ge_rank i results qrel :
  geb (reciprocalRankFrom isDocumentMatch i results qrel)
      (reciprocalRankFrom isRelevant i results qrel) = true.
Proof.
  revert i.
  induction results as [|r rest IH]; intros i; cbn [reciprocalRankFrom].
  - reflexivity.
  - destruct (isRelevant r qrel) eqn:Hrel.
    + rewrite (isRelevant_isDocumentMatch _ _ Hrel).
      fold (recip i). rewrite recip_fin. apply geb_refl_fin.
    + destruct (isDocumentMatch r qrel); [| apply IH].
      fold (recip i).
      destruct (reciprocalRankFrom_cases isRelevant (S i) rest qrel)
        as [-> | (j & Hj & ->)].
      * apply geb_recip_zero.
      * apply geb_recip. lia.
Qed.

(** C9: for every results list and judgment, the document-level MRR is
    greater than or equal to the exact-match MRR. *)
Theorem docMRR_ge_MRR results qrel :
  geb (calculateDocMRR results qrel) (calculateMRR results qrel) = true.
Proof. apply docRank_ge_rank. Qed.

(** C3: on the results [{A,2}; {A,5}; {B,1}] with truth [{A,5}] the
    metric functions return mrr = 1/2, docMrr = 1, recall@1 = 0,
    recall@3 = 1, precision@1 = 0 and precision@3 = 1/3. *)
Theorem concrete_scenario :
  calculateMRR scenarioResults scenarioTruth = Fin (Q2Qc (1 # 2))
  /\ calculateDocMRR scenarioResults scenarioTruth = Fin (Q2Qc 1)
  /\ calculateRecallAtK scenarioResults scenarioTruth 1 = of_nat 0
  /\ calculateRecallAtK scenarioResults scenarioTruth 3 = of_nat 1
  /\ calculatePrecisionAtK scenarioResults scenarioTruth 1 = of_nat 0
  /\ calculatePrecisionAtK scenarioResults scenarioTruth 3
     = Fin (Q2Qc (1 # 3)).
Proof. repeat split; vm_compute; reflexivity. Qed.

(** *** Precision at k *)

Lemma slice0_all {A} k (l : list A) : length l <= k -> slice0 k l = l.
Proof. apply firstn_all2. Qed.

(** C8: for a results list shorter than [k], precision@k is the number
    of exact matches in the list divided by the nominal [k], and is 0
    when there is no match. *)
Theorem precision_short_list results qrel k :
  length results < k ->
  calculatePrecisionAtK results qrel k
    = div (of_nat (exactMatches results qrel)) (of_nat k)
  /\ calculatePrecisionAtK results qrel k
    = Fin (Q2Qc (Z.of_nat (exactMatches results qrel) # Pos.of_nat k))
  /\ (exactMatches results qrel = 0 ->
      calculatePrecisionAtK results qrel k = of_nat 0).
Proof.
  intros Hlen.
  assert (Hdiv : calculatePrecisionAtK results qrel k
                 = div (of_nat (exactMatches results qrel)) (of_nat k)).
  { unfold calculatePrecisionAtK, exactMatches.
    rewrite slice0_all by lia. reflexivity. }
  split; [exact Hdiv|]. rewrite Hdiv, div_of_nat by lia.
  split; [reflexivity|].
  intros ->. unfold of_nat, of_Z. f_equal. apply Qc_is_canon.
  simpl this. rewrite !Qred_correct. reflexivity.
Qed.

Lemma precision_short_list_witness :
  length [item "A" 5; item "B" 1] < 3
  /\ calculatePrecisionAtK [item "A" 5; item "B" 1] scenarioTruth 3
     = Fin (Q2Qc (1 # 3))
  /\ calculatePrecisionAtK [item "B" 1] scenarioTruth 3 = of_nat 0.
Proof.
  split; [simpl; lia|]. split.
  - destruct (precision_short_list [item "A" 5; item "B" 1] scenarioTruth 3)
      as (_ & H & _); [simpl; lia | exact H].
  - destruct (precision_short_list [item "B" 1] scenarioTruth 3)
      as (_ & _ & H); [simpl; lia | apply H; reflexivity].
Defined.

(** *** Aggregation *)







(** *** Grouping *)

Lemma held_insert_fresh o k b :
  o !! k = None -> held (<[k := b]> o) = length b + held o.
Proof.
  intros Hk. unfold held.
  rewrite map_fold_insert_L; [reflexivity | intros; lia | exact Hk].
Qed.

Lemma held_lookup o k b :
  o !! k = Some b -> held o = length b + held (delete k o).
Proof.
  intros Hk. unfold held.
  apply (map_fold_delete_L (fun _ bucket n => length bucket + n) 0 k b o);
    [intros; lia | exact Hk].
Qed.

Lemma held_insert_present o k b b' :
  o !! k = Some b -> held (<[k := b']> o) + length b = length b' + held o.
Proof.
  intros Hk. rewrite (held_lookup o k b Hk).
  rewrite <- insert_delete_eq, held_insert_fresh by apply lookup_delete_eq.
  lia.
Qed.

(** A push that returns adds exactly one evaluation. *)
Lemma pushInto_held o k ev o' :
  pushInto o k ev = Normal o' -> held o' = S (held o).
Proof.
  unfold pushInto. destruct (o !! k) as [b|] eqn:Hk.
  - intros [= <-].
    pose proof (held_insert_present o k b (b ++ [ev]) Hk) as H.
    rewrite length_app in H. simpl in H. lia.
  - destruct (inherited k); [discriminate|]. intros [= <-].
    rewrite held_insert_fresh by exact Hk. reflexivity.
Qed.

Lemma pushInto_safe o k ev :
  inherited k = false -> exists o', pushInto o k ev = Normal o'.
Proof.
  intros Hk. unfold pushInto. rewrite Hk. destruct (o !! k); eauto.
Qed.

(** After a push the evaluation is in the bucket of its key, and every
    evaluation stays in the bucket it was in. *)
Lemma pushInto_member o k ev o' :
  pushInto o k ev = Normal o' ->
  (exists b, o' !! k = Some b /\ In ev b)
  /\ (forall k' b e, o !! k' = Some b -> In e b ->
        exists b', o' !! k' = Some b' /\ In e b').
Proof.
  unfold pushInto. intros H.
  assert (exists b0, o' = <[k := b0 ++ [ev]]> o
            /\ (forall b e, o !! k = Some b -> In e b -> In e b0))
    as (b0 & -> & Hb0).
  { destruct (o !! k) as [b|] eqn:Hk.
    - injection H as <-. exists b. split; [reflexivity|].
      intros ? ? [= <-]. auto.
    - destruct (inherited k); [discriminate|]. injection H as <-.
      exists []. split; [reflexivity|]. discriminate. }
  split.
  - exists (b0 ++ [ev]). rewrite lookup_insert_eq. split; [reflexivity|].
    apply in_or_app. right. now left.
  - intros k' b e Hb He. destruct (decide (k = k')) as [<- | Hne].
    + exists (b0 ++ [ev]). rewrite lookup_insert_eq. split; [reflexivity|].
      apply in_or_app. left. eauto.
    + exists b. rewrite lookup_insert_ne by exact Hne. auto.
Qed.

Lemma buckets_snoc evs ev : buckets (evs ++ [ev]) = groupStep (buckets evs) ev.
Proof. unfold buckets. rewrite fold_left_app. reflexivity. Qed.

Lemma buckets_safe evs :
  Forall safeKeys evs ->
  exists t s, buckets evs = Normal (t, s)
    /\ held t = length evs /\ held s = length evs
    /\ (forall ev, In ev evs ->
          exists b, t !! orUnknown (queryType ev) = Some b /\ In ev b)
    /\ (forall ev, In ev evs ->
          exists b, s !! orUnknown (querySource ev) = Some b /\ In ev b).
Proof.
  induction evs as [|ev evs IH] using rev_ind; intros Hsafe.
  - exists ∅, ∅. repeat split; try reflexivity; intros ? [].
  - apply Forall_app in Hsafe as [Hevs Hev].
    inversion Hev as [|? ? [Ht Hs] _]; subst.
    destruct (IH Hevs) as (t & s & Hb & Hht & Hhs & Hmt & Hms).
    destruct (pushInto_safe t _ ev Ht) as [t' Ht'].
    destruct (pushInto_safe s _ ev Hs) as [s' Hs'].
    exists t', s'. rewrite buckets_snoc, Hb. simpl. rewrite Ht', Hs'.
    rewrite length_app. simpl.
    rewrite (pushInto_held _ _ _ _ Ht'), (pushInto_held _ _ _ _ Hs').
    destruct (pushInto_member _ _ _ _ Ht') as [Hnt Hot].
    destruct (pushInto_member _ _ _ _ Hs') as [Hns Hos].
    repeat split; try lia.
    + intros e [He | [<- | []]]%in_app_or; [|exact Hnt].
      destruct (Hmt e He) as (b & Hb1 & Hb2). eauto.
    + intros e [He | [<- | []]]%in_app_or; [|exact Hns].
      destruct (Hms e He) as (b & Hb1 & Hb2). eauto.
Qed.

Lemma totalCount_summarize o : totalCount (summarize <$> o) = held o.
Proof. unfold totalCount, held. rewrite map_fold_fmap. reflexivity. Qed.

(** Falsy keys: the empty string goes where [null] and an absent key go. *)
Lemma orUnknown_falsy :
  orUnknown (JString "") = "unknown"%string
  /\ orUnknown JNull = "unknown"%string
  /\ orUnknown JUndefined = "unknown"%string.
Proof. repeat split. Qed.

(** What C10 says holds as long as no grouping key names a member of
    [Object.prototype]: every evaluation is in the bucket of its key
    and the counts of each grouping sum to the number of evaluations. *)
Lemma grouping_counts_sum evs :
  Forall safeKeys evs ->
  exists g, groupMetrics evs = Normal g
    /\ totalCount (byType g) = length evs
    /\ totalCount (bySource g) = length evs.
Proof.
  intros Hsafe. destruct (buckets_safe evs Hsafe) as (t & s & Hb & Ht & Hs & _).
  exists (mkGrouped (summarize <$> t) (summarize <$> s)).
  unfold groupMetrics. fold (buckets evs). rewrite Hb. simpl.
  rewrite !totalCount_summarize. auto.
Qed.

Example grouping_empty_string :
  exists g,
    groupMetrics [probe (JString ""); probe JNull; probe JUndefined;
                  probe (JString "extractive")] = Normal g
    /\ count <$> (byType g !! "unknown"%string) = Some 3
    /\ count <$> (byType g !! "extractive"%string) = Some 1.
Proof.
  eexists. split; [vm_compute; reflexivity|].
  split; vm_compute; reflexivity.
Qed.

(** C10 at a query whose type is ["constructor"]: the read
    [byType["constructor"]] finds the inherited [Object] function, no
    bucket is created, and [push] on it raises a TypeError; the
    evaluation lands in no bucket and no counts are produced. *)
Theorem grouping_inherited_key_throws :
  groupMetrics [probe (JString "constructor")] = ThrowTypeError.
Proof. vm_compute. reflexivity. Qed.

End ScorerFacts.

(** ** Aggregation, in binary64 *)

Module AggregationFacts.
Import Scorer Aggregation AggregationSpec.

Lemma get_accumulated k m ev :
  get k (accumulate m ev) = (get k m + get k (metrics ev))%float.
Proof. destruct m, k; reflexivity. Qed.

Lemma get_averaged k n m :
  get k (average n m) = (get k m / Binary64.of_nat n)%float.
Proof. destruct m, k; reflexivity. Qed.

Lemma get_summed k evs m :
  get k (fold_left accumulate evs m)
  = fold_left (fun s x => (s + x)%float) (column k evs) (get k m).
Proof.
  revert m. induction evs as [|ev evs IH]; intros m; simpl; [reflexivity|].
  rewrite IH, get_accumulated. reflexivity.
Qed.

Lemma get_aggregated k evs :
  get k (aggregateMetrics evs)
  = (total (column k evs) / Binary64.of_nat (length evs))%float.
Proof.
  unfold aggregateMetrics, total.
  rewrite get_averaged, get_summed. destruct k; reflexivity.
Qed.

(** C4, as the code has it: every field of the aggregate is the sum of
    that field over the evaluations, accumulated from 0 in list order,
    divided by their number, each addition and the division rounding to
    binary64: the arithmetic mean as binary64 computes it.  For the
    empty list no error is raised and the field is 0/0 = NaN. *)
Theorem aggregate_rounded_mean_or_NaN evs k :
  get k (aggregateMetrics evs)
  = (total (column k evs) / Binary64.of_nat (length evs))%float
  /\ (evs = [] -> get k (aggregateMetrics evs) = nan).
Proof.
  split; [apply get_aggregated|].
  intros ->. destruct k; reflexivity.
Qed.

(** The mean of 1/2 and 1/3 comes out as 0.41666666666666663, one unit
    in the last place below the binary64 value nearest to 5/12. *)
Lemma aggregate_rounded_mean_or_NaN_witness :
  get mrr (aggregateMetrics [scored (1 / 2)%float; scored (1 / 3)%float])
  = 0x1.aaaaaaaaaaaaap-2%float
  /\ (5 / 12)%float = 0x1.aaaaaaaaaaaabp-2%float
  /\ get mrr (aggregateMetrics []) = nan.
Proof.
  split; [|split; [reflexivity|]].
  - destruct (aggregate_rounded_mean_or_NaN
                [scored (1 / 2)%float; scored (1 / 3)%float] mrr) as [H _].
    rewrite H. reflexivity.
  - now apply (aggregate_rounded_mean_or_NaN [] mrr).
Defined.

(** C4, as the specification states it, fails: aggregating the empty
    list raises nothing and returns the record whose every field is
    NaN. *)
Lemma aggregate_nothing_is_NaN : aggregateMetrics [] = allNaN.
Proof. reflexivity. Qed.

End AggregationFacts.

(** * Further properties of the code *)

(** ** Cosine similarity: symmetry and mismatched dimensions *)

Module CosineMore.
Import Cosine CosineSpec CosineFacts CosineMoreSpec.

Lemma SFmul_comm x y : SFmul prec emax x y = SFmul prec emax y x.
Proof.
  destruct x as [sx|sx| |sx mx ex], y as [sy|sy| |sy my ey]; simpl;
    rewrite ?(xorb_comm sx sy), ?(Pos.mul_comm mx my), ?(Z.add_comm ex ey);
    reflexivity.
Qed.

Lemma mul_comm x y : (x * y = y * x)%float.
Proof.
  apply Prim2SF_inj. rewrite !FloatAxioms.mul_spec. apply SFmul_comm.
Qed.

Lemma dot_comm a : forall b s,
  fold_left (fun s p => (s + fst p * snd p)%float) (combine a b) s
  = fold_left (fun s p => (s + fst p * snd p)%float) (combine b a) s.
Proof.
  induction a as [|x a IH]; intros [|y b] s; simpl; try reflexivity.
  rewrite (mul_comm x y). apply IH.
Qed.

(** X1: for vectors of one length the similarity is symmetric, bit for
    bit: binary64 multiplication commutes and both calls add the same
    products in the same order. *)
Theorem cosine_symmetric a b :
  length a = length b -> cosineSimilarity a b = cosineSimilarity b a.
Proof.
  intros Hlen. rewrite (cosine_same_length a b Hlen).
  rewrite (cosine_same_length b a (eq_sym Hlen)).
  unfold cosineSpec, dotProduct. rewrite (dot_comm a b), (mul_comm (norm a)).
  reflexivity.
Qed.

Lemma cosine_symmetric_witness :
  length [1%float; 2%float] = length [3%float; 4%float]
  /\ cosineSimilarity [1%float; 2%float] [3%float; 4%float]
     = cosineSimilarity [3%float; 4%float] [1%float; 2%float].
Proof.
  split; [reflexivity|].
  apply (cosine_symmetric [1%float; 2%float] [3%float; 4%float]). reflexivity.
Defined.

(** The loop reads [b] only at the indices of [a]. *)
Lemma loop_ext b b' a : forall s i,
  (forall j, i <= j < i + length a -> at_index b j = at_index b' j) ->
  loop b s i a = loop b' s i a.
Proof.
  induction a as [|x a IH]; intros s i Hsame; cbn [loop]; [reflexivity|].
  unfold body. rewrite (Hsame i) by (simpl; lia).
  apply IH. intros j Hj. apply Hsame. simpl. lia.
Qed.

Lemma at_index_firstn n (b : vector) j :
  j < n -> at_index (firstn n b) j = at_index b j.
Proof.
  unfold at_index. revert n j. induction b as [|y b IH]; intros n j Hj.
  - rewrite firstn_nil. reflexivity.
  - destruct n as [|n]; [lia|]. destruct j as [|j]; simpl; [reflexivity|].
    apply IH. lia.
Qed.

(** X2: a second vector longer than the first is silently cut to the
    length of the first; no dimension mismatch is reported. *)
Theorem cosine_ignores_tail a b :
  cosineSimilarity a b = cosineSimilarity a (firstn (length a) b).
Proof.
  unfold cosineSimilarity.
  rewrite (loop_ext b (firstn (length a) b) a acc0 0); [reflexivity|].
  intros j Hj. symmetry. apply at_index_firstn. lia.
Qed.

Lemma add_nan_l x y : isNaN x -> isNaN (x + y)%float.
Proof. unfold isNaN. intros H. rewrite FloatAxioms.add_spec, H. reflexivity. Qed.

Lemma add_nan_r x y : isNaN y -> isNaN (x + y)%float.
Proof.
  unfold isNaN. intros H. rewrite FloatAxioms.add_spec, H. unfold SF64add.
  destruct (Prim2SF x); reflexivity.
Qed.

Lemma mul_nan_r x y : isNaN y -> isNaN (x * y)%float.
Proof.
  unfold isNaN. intros H. rewrite FloatAxioms.mul_spec, H. unfold SF64mul.
  destruct (Prim2SF x); reflexivity.
Qed.

Lemma div_nan_l x y : isNaN x -> isNaN (x / y)%float.
Proof. unfold isNaN. intros H. rewrite FloatAxioms.div_spec, H. reflexivity. Qed.

Lemma nan_isNaN : isNaN PrimFloat.nan.
Proof. reflexivity. Qed.

Lemma loop_dot_nan b a : forall s i, isNaN (dot s) -> isNaN (dot (loop b s i a)).
Proof.
  induction a as [|x a IH]; intros s i H; cbn [loop]; [exact H|].
  apply IH. cbn [body dot]. now apply add_nan_l.
Qed.

Lemma loop_past_end b a : forall s i,
  i <= length b < i + length a -> isNaN (dot (loop b s i a)).
Proof.
  induction a as [|x a IH]; intros s i H; cbn [loop].
  - simpl in H. lia.
  - destruct (le_lt_dec (length b) i) as [Hout | Hin].
    + apply loop_dot_nan. cbn [body dot]. apply add_nan_r, mul_nan_r.
      unfold at_index. rewrite nth_overflow by exact Hout. apply nan_isNaN.
    + apply IH. simpl in H. lia.
Qed.

(** X3: a second vector shorter than the first makes the similarity
    NaN: the missing components read as [undefined]. *)
Theorem cosine_short_b_is_NaN a b :
  length b < length a -> PrimFloat.is_nan (cosineSimilarity a b) = true.
Proof.
  intros H. apply is_nan_SF. unfold cosineSimilarity.
  apply div_nan_l, loop_past_end. simpl. lia.
Qed.

Lemma cosine_short_b_is_NaN_witness :
  length [1%float] < length [1%float; 2%float]
  /\ PrimFloat.is_nan (cosineSimilarity [1%float; 2%float] [1%float]) = true.
Proof.
  split; [simpl; lia|].
  apply (cosine_short_b_is_NaN [1%float; 2%float] [1%float]). simpl. lia.
Defined.

End CosineMore.

(** ** The chunker: where it splits and where it does not *)

Module ChunkerMore.
Import Cosine Chunker ChunkerSpec ChunkerFacts ChunkerMoreSpec.

Section WithCollaborators.
Variable splitIntoSentences : string -> list string.
Variable encode : string -> list nat.
Variable embedFn : string -> option vector.

Local Abbreviation semanticChunkWithLimits :=
  (semanticChunkWithLimits splitIntoSentences encode embedFn).
Local Abbreviation semanticChunkGroups :=
  (semanticChunkGroups splitIntoSentences encode embedFn).
Local Abbreviation groupTokens := (groupTokens encode).
Local Abbreviation tokens := (tokens encode).

Lemma groupTokens_app p q : groupTokens (p ++ q) = groupTokens p + groupTokens q.
Proof. induction p as [|x p IH]; simpl; [reflexivity | rewrite IH; lia]. Qed.

Lemma groupTokens_firstn n l : groupTokens (firstn n l) <= groupTokens l.
Proof.
  rewrite <- (firstn_skipn n l) at 2. rewrite groupTokens_app. lia.
Qed.

Lemma concat_length_ge (gs : list (list string)) :
  Forall (fun g => g <> []) gs -> length gs <= length (concat gs).
Proof.
  induction 1 as [|g gs Hg _ IH]; simpl; [lia|].
  rewrite length_app. destruct g; [contradiction | simpl; lia].
Qed.

Section Loop.
Variable opts : options.
Variable sentences : list string.
Variable embs : list vector.

Local Abbreviation runTo := (runTo encode opts sentences embs).
Local Abbreviation step := (body encode).
Local Abbreviation neverSplits := (neverSplits encode opts sentences embs).

(** A flushed group had reached [minTokens]. *)
Lemma runTo_flushed_reach_min n :
  n <= length sentences ->
  Forall (fun g => minTokens opts <= groupTokens g)
         (chunks (runTo (fun g => g) n)).
Proof.
  induction n as [|n IH]; intros Hn; [constructor|].
  rewrite runTo_S.
  pose proof (runTo_invariant encode opts sentences embs n ltac:(lia)) as Hinv.
  destruct Hinv as [_ Htok _ _ _ _].
  specialize (IH ltac:(lia)).
  unfold body.
  destruct (currentSentences (runTo (fun g => g) n)) as [|s0 cur] eqn:Hbuf;
    [exact IH|].
  match goal with |- context [if ?c then _ else _] => destruct c eqn:Hsplit end;
    cbn [chunks]; [|exact IH].
  apply Forall_app. split; [exact IH|]. constructor; [|constructor].
  apply andb_true_iff in Hsplit as [_ Hmin]. apply Nat.leb_le in Hmin.
  rewrite <- Htok. exact Hmin.
Qed.

Lemma chunkLoop_front_reach_min :
  Forall (fun g => minTokens opts <= groupTokens g)
         (removelast (chunkLoop encode (fun g => g) opts sentences embs)).
Proof.
  unfold chunkLoop, run.
  fold (runTo (fun g : list string => g) (length sentences)).
  pose proof (runTo_flushed_reach_min (length sentences) (le_n _)) as H.
  unfold finish.
  set (gs := runTo (fun g : list string => g) (length sentences)) in *.
  destruct (currentSentences gs).
  - clear -H. induction H as [|g l Hg Hl IH]; simpl; [constructor|].
    destruct l; [constructor | constructor; auto].
  - rewrite removelast_last. exact H.
Qed.

Lemma runTo_neverSplits n :
  neverSplits -> n <= length sentences ->
  runTo (fun g => g) n
  = mkState [] (firstn n sentences) (groupTokens (firstn n sentences)).
Proof.
  intros Hnever. induction n as [|n IH]; intros Hn; [reflexivity|].
  rewrite runTo_S, IH by lia.
  destruct n as [|n].
  - rewrite (firstn_snoc_nth sentences 0 EmptyString) by lia.
    unfold body. simpl. f_equal. lia.
  - apply Hnever. lia.
Qed.

Lemma chunkLoop_neverSplits :
  neverSplits -> sentences <> [] ->
  chunkLoop encode (fun g => g) opts sentences embs = [sentences].
Proof.
  intros Hnever Hne. unfold chunkLoop, run.
  fold (runTo (fun g : list string => g) (length sentences)).
  rewrite (runTo_neverSplits _ Hnever (le_n _)), firstn_all.
  unfold finish. cbn [currentSentences chunks].
  destruct sentences; [contradiction | reflexivity].
Qed.

(** The iteration appends when the split condition is false. *)
Lemma step_keeps n :
  0 < n < length sentences ->
  ((cosineSimilarity (nth (n - 1) embs []) (nth n embs []) <? threshold opts)%float
   || (maxTokens opts <? groupTokens (firstn n sentences)
                         + tokens (nth n sentences EmptyString)))
  && (minTokens opts <=? groupTokens (firstn n sentences)) = false ->
  step (fun g => g) opts sentences embs
       (mkState [] (firstn n sentences) (groupTokens (firstn n sentences))) n
  = mkState [] (firstn (S n) sentences) (groupTokens (firstn (S n) sentences)).
Proof.
  intros Hn Hkeep. unfold body. cbn [currentSentences currentTokens chunks].
  rewrite Hkeep.
  rewrite (firstn_snoc_nth sentences n EmptyString) by lia.
  rewrite groupTokens_snoc.
  destruct (firstn n sentences) eqn:Hpre; [|reflexivity].
  apply (f_equal (@length string)) in Hpre. rewrite length_firstn in Hpre.
  simpl in Hpre. lia.
Qed.

End Loop.

(** X4: no chunk boundary is introduced while the buffer holds fewer
    than [minTokens] tokens: every chunk but the last is the join of a
    group of at least [minTokens] tokens. *)
Theorem no_split_below_minTokens text opts :
  match fst (semanticChunkWithLimits text opts []),
        fst (semanticChunkGroups text opts []) with
  | Fulfilled chunks, Fulfilled groups =>
      chunks = map join groups
      /\ Forall (fun g => minTokens opts <= groupTokens g) (removelast groups)
  | Rejected, Rejected =>
      exists s, In s (splitIntoSentences text) /\ embedFn s = None
  | _, _ => False
  end.
Proof.
  unfold Chunker.semanticChunkWithLimits, Chunker.semanticChunkGroups.
  rewrite !chunkWith_run. cbn [fst].
  destruct (promiseAll _) as [embs|] eqn:Hall.
  - split; [apply chunkLoop_map | apply chunkLoop_front_reach_min].
  - now apply promiseAll_rejected.
Qed.

(** X5: there are never more chunks than sentences, and no chunk at all
    exactly when there is no sentence. *)
Theorem chunk_count_bounds text opts :
  match fst (semanticChunkWithLimits text opts []) with
  | Fulfilled chunks =>
      length chunks <= length (splitIntoSentences text)
      /\ (chunks = [] <-> splitIntoSentences text = [])
  | Rejected =>
      exists s, In s (splitIntoSentences text) /\ embedFn s = None
  end.
Proof.
  unfold Chunker.semanticChunkWithLimits. rewrite chunkWith_run. cbn [fst].
  destruct (promiseAll _) as [embs|] eqn:Hall;
    [|now apply promiseAll_rejected].
  rewrite chunkLoop_map.
  destruct (chunkLoop_groups encode opts (splitIntoSentences text) embs)
    as (Hcat & Hne & _).
  set (groups := chunkLoop encode (fun g => g) opts
                           (splitIntoSentences text) embs) in *.
  split.
  - rewrite length_map, <- Hcat. now apply concat_length_ge.
  - split.
    + intros Hnil. apply map_eq_nil in Hnil. rewrite <- Hcat, Hnil. reflexivity.
    + intros Hnil. rewrite Hnil in Hcat.
      destruct groups as [|g gs]; [reflexivity|].
      inversion Hne as [|? ? Hg _]; subst.
      simpl in Hcat. apply app_eq_nil in Hcat as [-> _]. contradiction.
Qed.

(** X6: when the sentences before the last one total fewer than
    [minTokens] tokens the text comes back as one chunk, whatever the
    similarities and [maxTokens] are. *)
Theorem short_text_stays_whole text opts front last :
  splitIntoSentences text = front ++ [last] ->
  groupTokens front < minTokens opts ->
  match fst (semanticChunkWithLimits text opts []) with
  | Fulfilled chunks => chunks = [join (front ++ [last])]
  | Rejected =>
      exists s, In s (splitIntoSentences text) /\ embedFn s = None
  end.
Proof.
  intros Hsent Hshort.
  unfold Chunker.semanticChunkWithLimits. rewrite chunkWith_run. cbn [fst].
  destruct (promiseAll _) as [embs|] eqn:Hall;
    [|now apply promiseAll_rejected].
  rewrite chunkLoop_map, chunkLoop_neverSplits.
  - rewrite Hsent. reflexivity.
  - intros n Hn. apply step_keeps; [exact Hn|].
    apply andb_false_iff. right. apply Nat.leb_gt.
    rewrite Hsent in *. rewrite length_app in Hn. simpl in Hn.
    rewrite firstn_app. replace (n - length front) with 0 by lia.
    rewrite firstn_O, app_nil_r.
    pose proof (groupTokens_firstn n front). lia.
  - rewrite Hsent. now destruct front.
Qed.

Lemma ltb_nan x t : PrimFloat.is_nan x = true -> (x <? t)%float = false.
Proof.
  intros H. rewrite FloatAxioms.ltb_spec. unfold Prim2SF at 1. rewrite H.
  reflexivity.
Qed.

Lemma zero_embeddings sentences :
  Forall (fun s => exists v, embedFn s = Some v
                             /\ Forall (fun x => x = 0%float) v)
         sentences ->
  exists embs, promiseAll (map embedFn sentences) = Some embs
               /\ Forall (Forall (fun x => x = 0%float)) embs.
Proof.
  induction 1 as [|s rest (v & Hv & Hzero) _ (embs & IH & Hembs)]; simpl.
  - exists []. split; [reflexivity | constructor].
  - rewrite Hv, IH. exists (v :: embs). split; [reflexivity | now constructor].
Qed.

Lemma nth_zero_vector (embs : list vector) i :
  Forall (Forall (fun x => x = 0%float)) embs ->
  Forall (fun x => x = 0%float) (nth i embs []).
Proof.
  intros H. revert i.
  induction H as [|v embs Hv _ IH]; intros [|i]; simpl; auto.
Qed.

(** X7: a NaN similarity never splits.  When every embedding is a zero
    vector and the text fits in [maxTokens], the text comes back as one
    chunk, however low [minTokens] is. *)
Theorem zero_embeddings_never_split text opts :
  splitIntoSentences text <> [] ->
  Forall (fun s => exists v, embedFn s = Some v
                             /\ Forall (fun x => x = 0%float) v)
         (splitIntoSentences text) ->
  groupTokens (splitIntoSentences text) <= maxTokens opts ->
  semanticChunkWithLimits text opts []
  = (Fulfilled [join (splitIntoSentences text)], splitIntoSentences text).
Proof.
  intros Hne Hzero Hfit.
  unfold Chunker.semanticChunkWithLimits. rewrite chunkWith_run.
  destruct (zero_embeddings _ Hzero) as (embs & -> & Hembs).
  rewrite chunkLoop_map, chunkLoop_neverSplits; [reflexivity | | exact Hne].
  intros n Hn. apply step_keeps; [exact Hn|].
  apply andb_false_iff. left. apply orb_false_iff. split.
  - apply ltb_nan, CosineFacts.zero_vector_gives_NaN, nth_zero_vector, Hembs.
  - apply Nat.ltb_ge.
    rewrite <- groupTokens_snoc, <- (firstn_snoc_nth _ n EmptyString) by lia.
    pose proof (groupTokens_firstn (S n) (splitIntoSentences text)). lia.
Qed.

End WithCollaborators.

Lemma short_text_stays_whole_witness :
  Toy.splitIntoSentences "Hi. Nine char." = ["Hi."%string] ++ ["Nine char."%string]
  /\ groupTokens Toy.encode ["Hi."%string] < minTokens Toy.tight
  /\ fst (Toy.chunk "Hi. Nine char." Toy.tight [])
     = Fulfilled ["Hi. Nine char."%string].
Proof.
  split; [reflexivity|]. split; [vm_compute; lia|].
  pose proof (short_text_stays_whole Toy.splitIntoSentences Toy.encode
                Toy.embedFn "Hi. Nine char." Toy.tight ["Hi."%string]
                "Nine char."%string eq_refl ltac:(vm_compute; lia)) as H.
  unfold Toy.chunk.
  destruct (fst (semanticChunkWithLimits Toy.splitIntoSentences Toy.encode
                   Toy.embedFn "Hi. Nine char." Toy.tight [])).
  - rewrite H. reflexivity.
  - destruct H as (s & _ & Hs). discriminate Hs.
Defined.

Lemma zero_embeddings_never_split_witness :
  semanticChunkWithLimits Toy.splitIntoSentences Toy.encode Standins.zeroEmbed
    "Hi. Ok." (mkOptions (threshold defaults) 500 1) []
  = (Fulfilled ["Hi. Ok."%string], ["Hi."%string; "Ok."%string]).
Proof.
  apply (zero_embeddings_never_split Toy.splitIntoSentences Toy.encode
           Standins.zeroEmbed "Hi. Ok." (mkOptions (threshold defaults) 500 1)).
  - discriminate.
  - repeat constructor; eexists; (split; [reflexivity | repeat constructor]).
  - vm_compute. lia.
Defined.

End ChunkerMore.

(** ** The scorer: how the metrics relate *)

Module ScorerMore.
Import Number Scorer ScorerSpec ScorerFacts ScorerMoreSpec.

Lemma geb_recip_iff i j : geb (recip i) (recip j) = true <-> i <= j.
Proof.
  rewrite !recip_fin. unfold geb. simpl this.
  rewrite Qle_bool_iff, Qred_le. unfold Qle. simpl. lia.
Qed.

Lemma geb_zero_recip j : geb (of_nat 0) (recip j) = false.
Proof.
  rewrite recip_fin. unfold geb, of_nat, of_Z. simpl this.
  apply not_true_is_false. rewrite Qle_bool_iff, Qred_le. unfold Qle. simpl. lia.
Qed.

Lemma recip_nonzero i : recip i <> of_nat 0.
Proof.
  intros H. pose proof (geb_zero_recip i) as Hz. rewrite <- H in Hz.
  rewrite recip_fin, geb_refl_fin in Hz. discriminate.
Qed.

(** The first match, if any, decides a reciprocal rank. *)
Lemma reciprocalRankFrom_first matches i results qrel :
  (Forall (fun r => matches r qrel = false) results
   /\ reciprocalRankFrom matches i results qrel = of_nat 0)
  \/ (exists pre r post,
        results = pre ++ r :: post
        /\ Forall (fun r => matches r qrel = false) pre
        /\ matches r qrel = true
        /\ reciprocalRankFrom matches i results qrel = recip (i + length pre)).
Proof.
  revert i. induction results as [|r rest IH]; intros i; cbn [reciprocalRankFrom].
  - left. split; [constructor | reflexivity].
  - destruct (matches r qrel) eqn:Hr.
    + right. exists [], r, rest. simpl. rewrite Nat.add_0_r. auto.
    + destruct (IH (S i)) as [[Hnone H0] | (pre & r' & post & -> & Hpre & Hr' & Hv)].
      * left. split; [now constructor | exact H0].
      * right. exists (r :: pre), r', post. simpl.
        replace (i + S (length pre)) with (S i + length pre) by lia.
        repeat split; auto.
Qed.

(** X8: the MRR of a query is 0 exactly when no result is an exact
    match, and otherwise the reciprocal of the 1-based rank of the first
    exact match, whatever follows it. *)
Theorem mrr_is_reciprocal_of_first_match results qrel :
  (Forall (fun r => isRelevant r qrel = false) results
   /\ calculateMRR results qrel = of_nat 0)
  \/ (exists pre r post,
        results = pre ++ r :: post
        /\ Forall (fun r => isRelevant r qrel = false) pre
        /\ isRelevant r qrel = true
        /\ calculateMRR results qrel
           = Fin (Q2Qc (1 # Pos.of_nat (length pre + 1)))
        /\ calculateMRR results qrel <> of_nat 0).
Proof.
  unfold calculateMRR.
  destruct (reciprocalRankFrom_first isRelevant 0 results qrel)
    as [H | (pre & r & post & Hres & Hpre & Hr & Hv)]; [now left|].
  right. exists pre, r, post. simpl in Hv. rewrite Hv.
  repeat split; auto using recip_fin, recip_nonzero.
Qed.

Lemma existsb_firstn_split {A} (f : A -> bool) pre r post k :
  Forall (fun x => f x = false) pre -> f r = true ->
  existsb f (firstn k (pre ++ r :: post)) = (length pre <? k).
Proof.
  revert k. induction pre as [|x pre IH]; intros k Hpre Hr.
  - destruct k; simpl; [reflexivity | now rewrite Hr].
  - inversion Hpre as [|? ? Hx Hrest]; subst.
    destruct k as [|k]; [reflexivity|]. simpl. rewrite Hx. simpl.
    rewrite IH by assumption. reflexivity.
Qed.

Lemma existsb_none {A} (f : A -> bool) l :
  Forall (fun x => f x = false) l -> existsb f l = false.
Proof. induction 1 as [|x l Hx _ IH]; simpl; [reflexivity | now rewrite Hx]. Qed.

Lemma Forall_firstn {A} (P : A -> Prop) k l : Forall P l -> Forall P (firstn k l).
Proof.
  intros H. revert k. induction H; intros [|k]; simpl; constructor; auto.
Qed.

(** X9: recall@k is 0 or 1, and it is 1 exactly when the MRR is at
    least 1/k: both look for the first exact match. *)
Theorem recall_iff_mrr_at_least results qrel k :
  0 < k ->
  (calculateRecallAtK results qrel k = of_nat 1
   <-> geb (calculateMRR results qrel) (recip (k - 1)) = true)
  /\ (calculateRecallAtK results qrel k = of_nat 0
      \/ calculateRecallAtK results qrel k = of_nat 1).
Proof.
  intros Hk. unfold calculateRecallAtK, calculateMRR, slice0.
  destruct (reciprocalRankFrom_first isRelevant 0 results qrel)
    as [[Hnone H0] | (pre & r & post & -> & Hpre & Hr & Hv)].
  - rewrite H0, (existsb_none _ _ (Forall_firstn _ k _ Hnone)), geb_zero_recip.
    split; [|now left]. split; [|discriminate].
    intros H. apply (f_equal (fun x => geb x (of_nat 1))) in H.
    vm_compute in H. discriminate.
  - rewrite Hv, (existsb_firstn_split _ pre r post k Hpre Hr). simpl.
    rewrite geb_recip_iff.
    destruct (length pre <? k) eqn:Hlt.
    + apply Nat.ltb_lt in Hlt. split; [|now right]. split; [lia | reflexivity].
    + apply Nat.ltb_ge in Hlt. split; [|now left]. split; [|lia].
      intros H. apply (f_equal (fun x => geb x (of_nat 1))) in H.
      vm_compute in H. discriminate.
Qed.

(** X10: recall@k never decreases when the cutoff grows. *)
Theorem recall_monotone results qrel k k' :
  k <= k' ->
  geb (calculateRecallAtK results qrel k') (calculateRecallAtK results qrel k) = true.
Proof.
  intros Hk. unfold calculateRecallAtK, slice0.
  set (f := fun r => isRelevant r qrel).
  destruct (existsb f (firstn k results)) eqn:Hfound;
    [|destruct (existsb f (firstn k' results)); reflexivity].
  apply existsb_exists in Hfound as (r & Hin & Hr).
  replace (existsb f (firstn k' results)) with true; [reflexivity|].
  symmetry. apply existsb_exists. exists r. split; [|exact Hr].
  rewrite <- (firstn_skipn k (firstn k' results)), firstn_firstn, Nat.min_l by lia.
  apply in_or_app. now left.
Qed.

Lemma Q2Qc_le a b : (Q2Qc a <= Q2Qc b)%Qc <-> (a <= b)%Q.
Proof. unfold Qcle, Q2Qc. cbn [this]. apply Qred_le. Qed.

Lemma Z_pos_of_nat k : 0 < k -> Z.pos (Pos.of_nat k) = Z.of_nat k.
Proof. intros Hk. destruct k; [lia|]. rewrite <- Pos.of_nat_succ. lia. Qed.

Lemma filter_length_le {A} (f : A -> bool) l : length (List.filter f l) <= length l.
Proof. induction l as [|x l IH]; simpl; [lia | destruct (f x); simpl; lia]. Qed.

Lemma filter_nil_existsb {A} (f : A -> bool) l :
  length (List.filter f l) = 0 <-> existsb f l = false.
Proof.
  induction l as [|x l IH]; simpl; [tauto|].
  destruct (f x); simpl; [split; [lia | discriminate] | exact IH].
Qed.

(** X11: precision@k lies between 0 and 1 for every cutoff k >= 1, and
    is 0 exactly when recall@k is 0; at k = 0 it is 0/0 = NaN. *)
Theorem precision_bounds results qrel k :
  (k = 0 -> calculatePrecisionAtK results qrel k = NaN)
  /\ (0 < k ->
      exists q, calculatePrecisionAtK results qrel k = Fin q
        /\ (0 <= q)%Qc /\ (q <= 1)%Qc
        /\ (q = Q2Qc 0 <-> calculateRecallAtK results qrel k = of_nat 0)).
Proof.
  split.
  - intros ->. reflexivity.
  - intros Hk. unfold calculatePrecisionAtK, calculateRecallAtK.
    set (f := fun r => isRelevant r qrel).
    set (n := length (List.filter f (slice0 k results))).
    assert (Hn : n <= k).
    { unfold n. etransitivity; [apply filter_length_le|].
      unfold slice0. rewrite length_firstn. lia. }
    rewrite div_of_nat by exact Hk.
    eexists. split; [reflexivity|]. split; [|split].
    + apply (Q2Qc_le 0). unfold Qle. simpl. lia.
    + apply (Q2Qc_le _ 1). unfold Qle. simpl.
      rewrite (Z_pos_of_nat k Hk). lia.
    + assert (Hzero : n = 0 <-> existsb f (slice0 k results) = false)
        by apply filter_nil_existsb.
      split.
      * intros Hq. apply (f_equal this) in Hq. simpl in Hq.
        apply Qred_eq_iff in Hq. unfold Qeq in Hq. simpl in Hq.
        assert (n = 0) as Hn0 by lia. apply Hzero in Hn0. rewrite Hn0. reflexivity.
      * destruct (existsb f (slice0 k results)) eqn:Hex.
        -- intros H. apply (f_equal (fun x => geb x (of_nat 1))) in H.
           vm_compute in H. discriminate.
        -- intros _. assert (n = 0) as -> by now apply Hzero.
           apply Qc_is_canon. simpl this. rewrite !Qred_correct. reflexivity.
Qed.





Lemma recall_iff_mrr_at_least_witness :
  0 < 3
  /\ calculateRecallAtK scenarioResults scenarioTruth 3 = of_nat 1
  /\ geb (calculateMRR scenarioResults scenarioTruth) (recip (3 - 1)) = true.
Proof.
  split; [lia|].
  destruct (recall_iff_mrr_at_least scenarioResults scenarioTruth 3)
    as [[Hto _] _]; [lia|].
  split; [reflexivity | apply Hto; reflexivity].
Defined.

Lemma recall_monotone_witness :
  1 <= 3
  /\ geb (calculateRecallAtK scenarioResults scenarioTruth 3)
         (calculateRecallAtK scenarioResults scenarioTruth 1) = true.
Proof.
  split; [lia|]. apply (recall_monotone scenarioResults scenarioTruth 1 3). lia.
Defined.

Lemma precision_bounds_witness :
  calculatePrecisionAtK scenarioResults scenarioTruth 0 = NaN
  /\ exists q, calculatePrecisionAtK scenarioResults scenarioTruth 3 = Fin q
               /\ (0 <= q)%Qc /\ (q <= 1)%Qc.
Proof.
  destruct (precision_bounds scenarioResults scenarioTruth 0) as [Hzero _].
  destruct (precision_bounds scenarioResults scenarioTruth 3) as [_ Hpos].
  split; [now apply Hzero|].
  destruct (Hpos ltac:(lia)) as (q & Hq & Hlo & Hhi & _). eauto.
Defined.



(** *** Grouping *)

Lemma pushInto_lookup o k ev o' :
  pushInto o k ev = Normal o' ->
  forall k', o' !! k' = if String.eqb k k'
                        then Some (default [] (o !! k) ++ [ev])
                        else o !! k'.
Proof.
  unfold pushInto. intros H k'.
  assert (o' = <[k := default [] (o !! k) ++ [ev]]> o) as ->.
  { destruct (o !! k) as [b|]; [now injection H as <-|].
    destruct (inherited k); [discriminate | now injection H as <-]. }
  destruct (String.eqb_spec k k') as [<- | Hne].
  - apply lookup_insert_eq.
  - now apply lookup_insert_ne.
Qed.

Lemma bucketOf_members key k evs :
  default [] (bucketOf key k evs) = membersOf key k evs.
Proof. unfold bucketOf. now destruct (membersOf key k evs). Qed.

Lemma bucketOf_snoc key k evs ev :
  bucketOf key k (evs ++ [ev])
  = if String.eqb (key ev) k then Some (membersOf key k evs ++ [ev])
    else bucketOf key k evs.
Proof.
  unfold bucketOf, membersOf. rewrite List.filter_app. simpl.
  destruct (String.eqb (key ev) k).
  - destruct (List.filter _ evs); reflexivity.
  - rewrite app_nil_r. reflexivity.
Qed.

Lemma buckets_inv evs t s :
  buckets evs = Normal (t, s) ->
  (forall k, t !! k = bucketOf typeKey k evs)
  /\ (forall k, s !! k = bucketOf sourceKey k evs).
Proof.
  revert t s. induction evs as [|ev evs IH] using rev_ind; intros t s H.
  - injection H as <- <-. split; intros k; apply lookup_empty.
  - rewrite buckets_snoc in H. destruct (buckets evs) as [[t0 s0]|]; [|discriminate].
    destruct (IH t0 s0 eq_refl) as [Ht0 Hs0].
    cbn [groupStep] in H. fold (typeKey ev) (sourceKey ev) in H.
    destruct (pushInto t0 (typeKey ev) ev) as [t1|] eqn:Ht1; [|discriminate].
    destruct (pushInto s0 (sourceKey ev) ev) as [s1|] eqn:Hs1; [|discriminate].
    injection H as <- <-. split; intros k.
    + rewrite (pushInto_lookup _ _ _ _ Ht1), bucketOf_snoc, Ht0, bucketOf_members.
      destruct (String.eqb_spec (typeKey ev) k) as [<- | _]; [|apply Ht0].
      reflexivity.
    + rewrite (pushInto_lookup _ _ _ _ Hs1), bucketOf_snoc, Hs0, bucketOf_members.
      destruct (String.eqb_spec (sourceKey ev) k) as [<- | _]; [|apply Hs0].
      reflexivity.
Qed.

(** X14: when no key names a member of [Object.prototype], each
    grouping holds, for every key, the count and the aggregate of
    exactly the evaluations with that key, in input order, and no bucket
    for a key that no evaluation has. *)
Theorem grouping_buckets_by_key evs :
  Forall safeKeys evs ->
  exists g, groupMetrics evs = Normal g
    /\ forall k,
         byType g !! k = summarize <$> bucketOf typeKey k evs
         /\ bySource g !! k = summarize <$> bucketOf sourceKey k evs.
Proof.
  intros Hsafe. destruct (buckets_safe evs Hsafe) as (t & s & Hb & _).
  destruct (buckets_inv evs t s Hb) as [Ht Hs].
  exists (mkGrouped (summarize <$> t) (summarize <$> s)). split.
  - unfold groupMetrics. fold (buckets evs). now rewrite Hb.
  - intros k. cbn [byType bySource]. rewrite !lookup_fmap, Ht, Hs. auto.
Qed.

Lemma bucketOf_Some_member key k evs b :
  bucketOf key k evs = Some b -> exists ev, In ev evs /\ key ev = k.
Proof.
  unfold bucketOf, membersOf. destruct (List.filter _ evs) as [|ev m] eqn:Hf; [discriminate|].
  intros _. assert (Hin : In ev (List.filter (fun ev => String.eqb (key ev) k) evs))
    by (rewrite Hf; now left).
  apply List.filter_In in Hin as [Hin Hk]. apply String.eqb_eq in Hk. eauto.
Qed.

Lemma pushInto_normal_safe key o k ev o' evs :
  (forall k, o !! k = bucketOf key k evs) ->
  Forall (fun e => inherited (key e) = false) evs ->
  pushInto o k ev = Normal o' -> inherited k = false.
Proof.
  intros Ho Hsafe. unfold pushInto. destruct (o !! k) as [b|] eqn:Hk.
  - intros _. rewrite Ho in Hk.
    destruct (bucketOf_Some_member _ _ _ _ Hk) as (e & Hin & <-).
    rewrite List.Forall_forall in Hsafe. now apply Hsafe.
  - destruct (inherited k); [discriminate | reflexivity].
Qed.

Lemma buckets_normal_safe evs p : buckets evs = Normal p -> Forall safeKeys evs.
Proof.
  revert p. induction evs as [|ev evs IH] using rev_ind; intros p H; [constructor|].
  rewrite buckets_snoc in H. destruct (buckets evs) as [[t0 s0]|] eqn:Hb; [|discriminate].
  pose proof (IH _ eq_refl) as Hsafe.
  destruct (buckets_inv evs t0 s0 Hb) as [Ht0 Hs0].
  cbn [groupStep] in H.
  destruct (pushInto t0 _ ev) as [t1|] eqn:Ht1; [|discriminate].
  destruct (pushInto s0 _ ev) as [s1|] eqn:Hs1; [|discriminate].
  apply Forall_app. split; [exact Hsafe|]. constructor; [|constructor]. split.
  - apply (pushInto_normal_safe typeKey t0 _ ev t1 evs Ht0); [|exact Ht1].
    eapply List.Forall_impl; [|exact Hsafe]. now intros e [He _].
  - apply (pushInto_normal_safe sourceKey s0 _ ev s1 evs Hs0); [|exact Hs1].
    eapply List.Forall_impl; [|exact Hsafe]. now intros e [_ He].
Qed.

(** X15: grouping raises the TypeError exactly when the type or the
    source of some evaluation names a member of [Object.prototype]. *)
Theorem grouping_throws_iff_inherited_key evs :
  groupMetrics evs = ThrowTypeError <-> Exists unsafeKeys evs.
Proof.
  unfold groupMetrics. fold (buckets evs). split.
  - destruct (buckets evs) as [[t s]|] eqn:Hb; [discriminate|]. intros _.
    apply List.Exists_exists.
    destruct (List.Forall_Exists_dec safeKeys) with (l := evs) as [Hall | Hex].
    + intros ev. unfold safeKeys.
      destruct (inherited (orUnknown (queryType ev))), (inherited (orUnknown (querySource ev)));
        (left; split; reflexivity) || (right; intros [? ?]; discriminate).
    + destruct (buckets_safe evs Hall) as (t & s & Hb' & _). congruence.
    + apply List.Exists_exists in Hex as (ev & Hin & Hev). exists ev. split; [exact Hin|].
      unfold safeKeys in Hev. unfold unsafeKeys, typeKey, sourceKey.
      destruct (inherited (orUnknown (queryType ev))); [now left|].
      destruct (inherited (orUnknown (querySource ev))); [now right|].
      now destruct Hev.
  - intros Hex. destruct (buckets evs) as [[t s]|] eqn:Hb; [|reflexivity].
    apply buckets_normal_safe in Hb.
    apply List.Exists_exists in Hex as (ev & Hin & Hev).
    rewrite List.Forall_forall in Hb. destruct (Hb ev Hin) as [Ht Hs].
    unfold unsafeKeys, typeKey, sourceKey in Hev. destruct Hev; congruence.
Qed.

Lemma grouping_buckets_by_key_witness :
  exists g,
    groupMetrics [Standins.typed "extractive" (of_nat 1);
                  Standins.typed "abstractive" (of_nat 0);
                  Standins.typed "extractive" (of_nat 0)] = Normal g
    /\ count <$> (byType g !! "extractive"%string) = Some 2
    /\ byType g !! "boolean"%string = None.
Proof.
  destruct (grouping_buckets_by_key
              [Standins.typed "extractive" (of_nat 1);
               Standins.typed "abstractive" (of_nat 0);
               Standins.typed "extractive" (of_nat 0)])
    as (g & Hg & Hk).
  - repeat constructor.
  - exists g. split; [exact Hg|].
    destruct (Hk "extractive"%string) as [-> _].
    destruct (Hk "boolean"%string) as [-> _].
    split; reflexivity.
Defined.

End ScorerMore.

(** ** Binary64: what is exact *)

Module Binary64Facts.
Import Binary64 Binary64Spec.

Section Exact.
Local Open Scope Z_scope.

Local Abbreviation frec m := (Build_shr_record m false false).

(** Shifting out [p] zero bits is exact. *)
Lemma iter_shr_exact p : forall z, 0 < z ->
  SpecFloat.iter_pos shr_1 p (frec (z * 2 ^ Zpos p)) = frec z.
Proof.
  assert (Hone : forall z, 0 < z -> shr_1 (frec (z * 2)) = frec z).
  { intros [|q|q] Hz; try lia. rewrite Z.mul_comm. reflexivity. }
  induction p as [p IH | p IH |]; intros z Hz; cbn [SpecFloat.iter_pos].
  - replace (z * 2 ^ Zpos p~1) with ((z * 2 ^ Zpos p) * 2 ^ Zpos p * 2).
    + rewrite Hone by nia. rewrite IH by nia. apply IH, Hz.
    + replace (Zpos p~1) with (Zpos p + Zpos p + 1) by lia.
      rewrite !Z.pow_add_r by lia. ring.
  - replace (z * 2 ^ Zpos p~0) with ((z * 2 ^ Zpos p) * 2 ^ Zpos p).
    + rewrite IH by nia. apply IH, Hz.
    + replace (Zpos p~0) with (Zpos p + Zpos p) by lia.
      rewrite !Z.pow_add_r by lia. ring.
  - rewrite Z.pow_1_r. apply Hone, Hz.
Qed.

Lemma iter_xO_value m p : Zpos (Pos.iter xO m p) = Zpos m * 2 ^ Zpos p.
Proof.
  induction p as [|p IH] using Pos.peano_ind.
  - cbn [Pos.iter]. rewrite Z.pow_1_r. lia.
  - rewrite Pos.iter_succ, Pos2Z.inj_xO, IH, Pos2Z.inj_succ, Z.pow_succ_r by lia.
    ring.
Qed.

Lemma iter_xO_digits m p :
  Zpos (digits2_pos (Pos.iter xO m p)) = Zpos (digits2_pos m) + Zpos p.
Proof.
  induction p as [|p IH] using Pos.peano_ind.
  - cbn [Pos.iter digits2_pos]. lia.
  - rewrite Pos.iter_succ. cbn [digits2_pos]. lia.
Qed.

Lemma digits_shifted m a :
  0 <= a -> Zdigits2 (Zpos m * 2 ^ a) = Zpos (digits2_pos m) + a.
Proof.
  intros Ha. destruct a as [|p|p]; [| |lia].
  - rewrite Z.mul_1_r, Z.add_0_r. reflexivity.
  - rewrite <- iter_xO_value. cbn [Zdigits2]. apply iter_xO_digits.
Qed.

(** Rounding a mantissa that ends in [a] zero bits at the exponent its
    leading part is canonical for loses nothing. *)
Lemma round_exact s m a e :
  0 <= a ->
  canonical_mantissa prec emax m (e + a) = true ->
  (e + a <=? emax - prec) = true ->
  binary_round_aux prec emax s (Zpos m * 2 ^ a) e loc_Exact
  = S754_finite s m (e + a).
Proof.
  intros Ha Hcanon Hmax. unfold canonical_mantissa in Hcanon.
  apply Z.eqb_eq in Hcanon.
  unfold binary_round_aux, shr_fexp.
  rewrite digits_shifted by exact Ha.
  replace (Zpos (digits2_pos m) + a + e) with (Zpos (digits2_pos m) + (e + a))
    by ring.
  rewrite Hcanon. replace (e + a - e) with a by ring.
  cbn [shr_record_of_loc].
  assert (Hshr : shr (frec (Zpos m * 2 ^ a)) e a = (frec (Zpos m), e + a)).
  { destruct a as [|p|p]; [| |lia]; cbn [shr].
    - rewrite Z.mul_1_r, Z.add_0_r. reflexivity.
    - rewrite iter_shr_exact by lia. reflexivity. }
  rewrite Hshr. cbn [shr_m loc_of_shr_record round_nearest_even Zdigits2].
  rewrite Hcanon, Z.sub_diag. cbn [shr_record_of_loc shr shr_m].
  rewrite Hmax. reflexivity.
Qed.

Lemma Prim2SF_one : Prim2SF 1 = S754_finite false 4503599627370496 (-52).
Proof. reflexivity. Qed.

Lemma div_core_by_one m e :
  bounded prec emax m e = true ->
  exists a, 0 <= a
    /\ SFdiv_core_binary prec emax (Zpos m) e 4503599627370496 (-52)
       = (Zpos m * 2 ^ a, e - a, loc_Exact).
Proof.
  intros Hb. unfold bounded, canonical_mantissa in Hb.
  apply andb_prop in Hb as [Hc Hmax]. apply Z.eqb_eq in Hc.
  unfold SFdiv_core_binary. cbn [Zdigits2].
  change (Zpos (digits2_pos 4503599627370496)) with 53.
  set (d := Zpos (digits2_pos m)) in *.
  assert (Ha : exists a, (a = 0 \/ a = 1)
             /\ Z.min (fexp prec emax (d + e - (53 + -52))) (e - -52) = e - a).
  { unfold fexp, emin, prec, emax in *.
    destruct (Z.eq_dec e (-1074)); [exists 0 | exists 1]; split; auto; lia. }
  destruct Ha as (a & Ha & ->).
  exists a. split; [lia|].
  replace (e - -52 - (e - a)) with (52 + a) by ring.
  assert (Hsh : match 52 + a with
                | Zpos _ => Z.shiftl (Zpos m) (52 + a)
                | 0 => Zpos m
                | Zneg _ => 0
                end = Zpos m * 2 ^ a * 4503599627370496).
  { destruct Ha as [-> | ->];
      [change (52 + 0) with 52 | change (52 + 1) with 53]; cbv beta iota;
      rewrite Z.shiftl_mul_pow2 by lia;
      [change (2 ^ 52) with 4503599627370496; change (2 ^ 0) with 1
      |change (2 ^ 53) with (2 * 4503599627370496); change (2 ^ 1) with 2];
      lia. }
  rewrite Hsh.
  destruct (Z.div_eucl _ _) as [q r] eqn:Hqr.
  assert (Hq : q = Zpos m * 2 ^ a).
  { change q with (fst (q, r)). rewrite <- Hqr.
    apply (Z.div_mul (Zpos m * 2 ^ a) 4503599627370496). lia. }
  assert (Hr : r = 0).
  { change r with (snd (q, r)). rewrite <- Hqr.
    apply (Z.mod_mul (Zpos m * 2 ^ a) 4503599627370496). lia. }
  subst q r. reflexivity.
Qed.

(** Dividing by one changes nothing, whatever the value. *)
Lemma div_one (x : float) : (x / 1)%float = x.
Proof.
  apply Prim2SF_inj. rewrite FloatAxioms.div_spec, Prim2SF_one.
  pose proof (Prim2SF_valid x) as Hv.
  destruct (Prim2SF x) as [s | s | | s m e]; cbn [SF64div SFdiv valid_binary] in *;
    try reflexivity; try (destruct s; reflexivity).
  unfold SF64div, SFdiv.
  destruct (div_core_by_one m e Hv) as (a & Ha & ->).
  rewrite xorb_false_r.
  replace e with (e - a + a) at 2 by ring.
  apply round_exact; [exact Ha | |];
    unfold bounded in Hv; apply andb_prop in Hv as [Hc Hmax];
    replace (e - a + a) with e by ring; assumption.
Qed.

(** Adding a value to the initial [0] gives the value back, except
    that the negative zero becomes the positive one. *)
Lemma zero_add (x : float) : x <> (-0)%float -> (0 + x)%float = x.
Proof.
  intros Hx. apply Prim2SF_inj. rewrite FloatAxioms.add_spec.
  change (Prim2SF 0) with (S754_zero false).
  destruct (Prim2SF x) as [[|] | s | | s m e] eqn:Hsf; try reflexivity.
  exfalso. apply Hx. apply Prim2SF_inj. rewrite Hsf. reflexivity.
Qed.

Lemma zero_add_negzero : (0 + -0)%float = 0%float.
Proof. reflexivity. Qed.

(** *** Integers *)

Lemma digits_bounds q :
  2 ^ (Zpos (digits2_pos q) - 1) <= Zpos q < 2 ^ Zpos (digits2_pos q).
Proof.
  induction q as [q IH | q IH |]; cbn [digits2_pos].
  - rewrite Pos2Z.inj_succ, Z.pow_succ_r by lia.
    replace (Z.succ (Zpos (digits2_pos q)) - 1)
      with (Z.succ (Zpos (digits2_pos q) - 1)) by lia.
    rewrite Z.pow_succ_r by lia. lia.
  - rewrite Pos2Z.inj_succ, Z.pow_succ_r by lia.
    replace (Z.succ (Zpos (digits2_pos q)) - 1)
      with (Z.succ (Zpos (digits2_pos q) - 1)) by lia.
    rewrite Z.pow_succ_r by lia. lia.
  - cbn. lia.
Qed.

Lemma digits_small q : Zpos q < 2 ^ 53 -> Zpos (digits2_pos q) <= 53.
Proof.
  intros Hq. destruct (digits_bounds q) as [Hlo _].
  destruct (Z_le_gt_dec (Zpos (digits2_pos q)) 53) as [H | H]; [exact H|].
  exfalso. assert (2 ^ 53 <= 2 ^ (Zpos (digits2_pos q) - 1))
    by (apply Z.pow_le_mono_r; lia). lia.
Qed.

Lemma round_int q p j :
  0 <= j -> Zpos p = Zpos q * 2 ^ j -> Zpos q < 2 ^ 53 ->
  binary_round prec emax false p (- j) = canonInt q.
Proof.
  intros Hj Hp Hq. pose proof (digits_small q Hq) as Hd.
  unfold binary_round, canonInt.
  assert (Hdp : Zpos (digits2_pos p) = Zpos (digits2_pos q) + j).
  { change (Zpos (digits2_pos p)) with (Zdigits2 (Zpos p)).
    rewrite Hp. apply digits_shifted, Hj. }
  rewrite Hdp. set (d := Zpos (digits2_pos q)) in *.
  assert (Hdpos : 0 < d) by (unfold d; lia).
  replace (fexp prec emax (d + j + - j)) with (d - 53)
    by (unfold fexp, emin, prec, emax; lia).
  assert (HM : Zpos (Z.to_pos (Zpos q * 2 ^ (53 - d))) = Zpos q * 2 ^ (53 - d)).
  { apply Z2Pos.id. assert (0 < 2 ^ (53 - d)) by (apply Z.pow_pos_nonneg; lia).
    nia. }
  set (M := Z.to_pos (Zpos q * 2 ^ (53 - d))) in *.
  assert (HdM : Zpos (digits2_pos M) = 53).
  { change (Zpos (digits2_pos M)) with (Zdigits2 (Zpos M)).
    rewrite HM, digits_shifted by lia. fold d. lia. }
  assert (Hcanon : canonical_mantissa prec emax M (d - 53) = true).
  { unfold canonical_mantissa. rewrite HdM. apply Z.eqb_eq.
    unfold fexp, emin, prec, emax. lia. }
  assert (Hmax : (d - 53 <=? emax - prec) = true)
    by (apply Z.leb_le; unfold prec, emax; lia).
  unfold shl_align.
  destruct (d - 53 - - j) as [|t|k] eqn:Ht.
  - replace (d - 53) with (- j + 0) by lia.
    assert (Hval : Zpos p = Zpos M * 2 ^ 0).
    { rewrite HM, Hp, Z.mul_1_r. replace (53 - d) with j by lia. reflexivity. }
    rewrite Hval. apply round_exact; [lia | |];
      replace (- j + 0) with (d - 53) by lia; assumption.
  - replace (d - 53) with (- j + Zpos t) by lia.
    assert (Hval : Zpos p = Zpos M * 2 ^ Zpos t).
    { rewrite HM, Hp, <- Z.mul_assoc, <- Z.pow_add_r by lia.
      f_equal. f_equal. lia. }
    rewrite Hval. apply round_exact; [lia | |];
      replace (- j + Zpos t) with (d - 53) by lia; assumption.
  - assert (Hval : Zpos (Pos.iter xO p k) = Zpos M * 2 ^ 0).
    { rewrite iter_xO_value, HM, Hp, Z.mul_1_r, <- Z.mul_assoc, <- Z.pow_add_r
        by lia. f_equal. f_equal. lia. }
    rewrite Hval. replace (d - 53) with (d - 53 + 0) at 2 by lia.
    apply round_exact; [lia | |];
      replace (d - 53 + 0) with (d - 53) by lia; assumption.
Qed.

Lemma Prim2SF_of_Z z :
  0 <= z <= 2 ^ 53 ->
  Prim2SF (of_Z z) = binary_normalize prec emax z 0 false.
Proof.
  intros Hz. unfold of_Z.
  rewrite FloatAxioms.of_uint63_spec, Uint63.of_Z_spec, Z.mod_small;
    [reflexivity|].
  change Uint63.wB with (2 ^ 63). split; [lia|].
  assert (2 ^ 53 < 2 ^ 63) by reflexivity. lia.
Qed.

Lemma Prim2SF_of_pos q :
  Zpos q < 2 ^ 53 -> Prim2SF (of_Z (Zpos q)) = canonInt q.
Proof.
  intros Hq. rewrite Prim2SF_of_Z by lia. cbn [binary_normalize].
  apply (round_int q q 0); [lia | rewrite Z.mul_1_r; reflexivity | exact Hq].
Qed.

Lemma shl_align_value m e e' :
  e' <= e -> Zpos (fst (shl_align m e e')) = Zpos m * 2 ^ (e - e').
Proof.
  intros He. unfold shl_align.
  destruct (e' - e) as [|t|k] eqn:Hd; cbn [fst]; try lia.
  - replace (e - e') with 0 by lia. lia.
  - rewrite iter_xO_value. f_equal. f_equal. lia.
Qed.

(** Below [2 ^ 53] the increment of an integer is exact. *)
Lemma of_Z_succ z :
  0 <= z < 2 ^ 53 -> (of_Z z + 1)%float = of_Z (z + 1).
Proof.
  intros Hz. apply Prim2SF_inj.
  rewrite FloatAxioms.add_spec, Prim2SF_one.
  destruct z as [|q|q]; [reflexivity | | lia].
  rewrite (Prim2SF_of_Z (Zpos q + 1)) by lia.
  rewrite Prim2SF_of_pos by lia.
  replace (Zpos q + 1) with (Zpos (q + 1)) by lia.
  cbn [binary_normalize]. unfold canonInt, SF64add, SFadd.
  pose proof (digits_small q ltac:(lia)) as Hd.
  set (d := Zpos (digits2_pos q)) in *.
  assert (Hdpos : 0 < d) by (unfold d; lia).
  replace (Z.min (d - 53) (-52)) with (-52) by lia.
  assert (HM : Zpos (Z.to_pos (Zpos q * 2 ^ (53 - d))) = Zpos q * 2 ^ (53 - d)).
  { apply Z2Pos.id. assert (0 < 2 ^ (53 - d)) by (apply Z.pow_pos_nonneg; lia).
    nia. }
  cbn [cond_Zopp]. rewrite !shl_align_value by lia. rewrite HM.
  replace (Zpos q * 2 ^ (53 - d) * 2 ^ (d - 53 - -52)
           + 4503599627370496 * 2 ^ (-52 - -52))
    with (Zpos (q + 1) * 2 ^ 52).
  2:{ rewrite <- Z.mul_assoc, <- Z.pow_add_r by lia.
      replace (53 - d + (d - 53 - -52)) with 52 by lia.
      change (2 ^ (-52 - -52)) with 1. change (2 ^ 52) with 4503599627370496.
      lia. }
  destruct (Z.eq_dec (Zpos (q + 1)) (2 ^ 53)) as [Heq | Hne].
  - injection Heq as ->. reflexivity.
  - assert (Hlt : Zpos (q + 1) < 2 ^ 53) by lia.
    destruct (Zpos (q + 1) * 2 ^ 52) as [|p|p] eqn:Hp; try lia.
    cbn [binary_normalize].
    pose proof (round_int (q + 1) p 52 ltac:(lia) ltac:(lia) Hlt) as Hl.
    pose proof (round_int (q + 1) (q + 1) 0 ltac:(lia) ltac:(lia) Hlt) as Hr.
    change (Z.opp 52) with (-52) in Hl. change (Z.opp 0) with 0 in Hr.
    rewrite Hl, Hr. reflexivity.
Qed.

(** At [2 ^ 53] it is not: the increment returns its argument. *)
Lemma of_Z_stuck : (of_Z (2 ^ 53) + 1)%float = of_Z (2 ^ 53).
Proof. reflexivity. Qed.

Lemma canonInt_inj q q' :
  Zpos q < 2 ^ 53 -> Zpos q' < 2 ^ 53 -> canonInt q = canonInt q' -> q = q'.
Proof.
  intros Hq Hq' Heq. unfold canonInt in Heq.
  pose proof (digits_small q Hq) as Hd. pose proof (digits_small q' Hq') as Hd'.
  assert (Hdd : Zpos (digits2_pos q) - 53 = Zpos (digits2_pos q') - 53)
    by congruence.
  assert (HM : Z.to_pos (Zpos q * 2 ^ (53 - Zpos (digits2_pos q)))
               = Z.to_pos (Zpos q' * 2 ^ (53 - Zpos (digits2_pos q'))))
    by congruence.
  clear Heq.
  assert (Hdeq : Zpos (digits2_pos q') = Zpos (digits2_pos q)) by lia.
  rewrite Hdeq in HM. set (d := Zpos (digits2_pos q)) in *.
  assert (Hpow : 0 < 2 ^ (53 - d)) by (apply Z.pow_pos_nonneg; lia).
  apply Z2Pos.inj in HM; nia.
Qed.

(** Distinct integers up to [2 ^ 53] are distinct numbers. *)
Lemma of_Z_inj a b :
  0 <= a <= 2 ^ 53 -> 0 <= b <= 2 ^ 53 -> of_Z a = of_Z b -> a = b.
Proof.
  assert (Htop : Prim2SF (of_Z (2 ^ 53)) = S754_finite false 4503599627370496 1)
    by reflexivity.
  assert (Hcase : forall z, 0 <= z <= 2 ^ 53 ->
            (z = 0 /\ Prim2SF (of_Z z) = S754_zero false)
            \/ (exists q, z = Zpos q /\ Zpos q < 2 ^ 53
                          /\ Prim2SF (of_Z z) = canonInt q)
            \/ (z = 2 ^ 53)).
  { intros [|q|q] Hz; try lia.
    - left. split; reflexivity.
    - destruct (Z.eq_dec (Zpos q) (2 ^ 53)) as [-> | Hne]; [now right; right|].
      right. left. exists q. split; [reflexivity|].
      split; [lia | apply Prim2SF_of_pos; lia]. }
  intros Ha Hb Heq. apply (f_equal Prim2SF) in Heq.
  destruct (Hcase a Ha) as [[-> Ea] | [(q & -> & Hq & Ea) | ->]];
  destruct (Hcase b Hb) as [[-> Eb] | [(q' & -> & Hq' & Eb) | ->]];
    try reflexivity; rewrite ?Ea, ?Eb, ?Htop in Heq; unfold canonInt in *;
    try discriminate.
  - f_equal. apply canonInt_inj; assumption.
  - pose proof (digits_small q Hq).
    assert (Zpos (digits2_pos q) - 53 = 1) by congruence. lia.
  - pose proof (digits_small q' Hq').
    assert (1 = Zpos (digits2_pos q') - 53) by congruence. lia.
Qed.

End Exact.

End Binary64Facts.

(** ** Aggregation: a single evaluation *)

Module AggregationMore.
Import Scorer Aggregation AggregationSpec AggregationFacts Binary64Facts.

Lemma of_nat_one : Binary64.of_nat 1 = 1%float.
Proof. reflexivity. Qed.

(** X12: aggregating a single evaluation returns each of its metrics
    unchanged, NaN and the infinities included, except that a negative
    zero comes back as the positive zero. *)
Theorem aggregate_singleton ev k :
  (get k (metrics ev) <> (-0)%float ->
   get k (aggregateMetrics [ev]) = get k (metrics ev))
  /\ (get k (metrics ev) = (-0)%float ->
      get k (aggregateMetrics [ev]) = 0%float).
Proof.
  rewrite get_aggregated. unfold total, column.
  cbn [map fold_left length]. rewrite of_nat_one, div_one.
  split.
  - apply zero_add.
  - intros ->. reflexivity.
Qed.

Lemma aggregate_singleton_witness :
  get mrr (aggregateMetrics [scored (1 / 3)%float]) = (1 / 3)%float
  /\ get ndcg (aggregateMetrics [scored nan]) = nan
  /\ get mrr (aggregateMetrics [scored (-0)%float]) = 0%float.
Proof.
  split; [|split].
  - apply (aggregate_singleton (scored (1 / 3)%float) mrr). discriminate.
  - apply (aggregate_singleton (scored nan) ndcg). discriminate.
  - now apply (aggregate_singleton (scored (-0)%float) mrr).
Defined.

End AggregationMore.

(** ** Download: retries and the documents to fetch *)

Module DownloadFacts.
Import Scorer Download Ingest DownloadSpec.

Section Fetch.
Variables (J E : Type).
Variable fetchOnce : nat -> attempt J E.

Local Abbreviation fetchFrom := (fetchFrom J E fetchOnce).
Local Abbreviation fetchJson := (fetchJson J E fetchOnce).

Lemma backoffFrom_S i j :
  backoffFrom i (S j) = [Fetch; Sleep (1000 * (i + 1))] ++ backoffFrom (S i) j.
Proof. reflexivity. Qed.

Lemma fetchFrom_success retries n : forall i j trace d,
  i + n = retries -> i <= j < retries ->
  (forall k, i <= k < j -> exists e, fetchOnce k = Failure e) ->
  fetchOnce j = Success d ->
  fetchFrom retries i n trace
  = (Returned (Some d), trace ++ backoffFrom i (j - i) ++ [Fetch]).
Proof.
  induction n as [|n IH]; intros i j trace d Hn Hj Hfail Hok; [lia|].
  cbn [Download.fetchFrom].
  destruct (Nat.eq_dec i j) as [<- | Hne].
  - rewrite Hok, Nat.sub_diag. reflexivity.
  - destruct (Hfail i ltac:(lia)) as [e He]. rewrite He.
    replace (i =? retries - 1) with false by (symmetry; apply Nat.eqb_neq; lia).
    rewrite (IH (S i) j _ d) by (try lia; auto; intros k Hk; apply Hfail; lia).
    replace (j - i) with (S (j - S i)) by lia.
    rewrite backoffFrom_S, <- !app_assoc. reflexivity.
Qed.

Lemma fetchFrom_exhausted retries n : forall i trace e,
  i + n = retries -> 0 < n ->
  (forall k, i <= k < retries -> exists e', fetchOnce k = Failure e') ->
  fetchOnce (retries - 1) = Failure e ->
  fetchFrom retries i n trace
  = (Thrown e, trace ++ backoffFrom i (n - 1) ++ [Fetch]).
Proof.
  induction n as [|n IH]; intros i trace e Hn Hpos Hfail Hlast; [lia|].
  cbn [Download.fetchFrom].
  destruct (Hfail i ltac:(lia)) as [e' He']. rewrite He'.
  destruct (Nat.eqb_spec i (retries - 1)) as [Heq | Hne].
  - assert (n = 0) as -> by lia. rewrite Heq, Hlast in He'. injection He' as <-.
    reflexivity.
  - rewrite (IH (S i) _ e) by (try lia; auto; intros k Hk; apply Hfail; lia).
    replace (S n - 1) with (S (n - 1)) by lia.
    rewrite backoffFrom_S, <- !app_assoc. reflexivity.
Qed.

Lemma waited_app t1 t2 : waited (t1 ++ t2) = waited t1 + waited t2.
Proof.
  induction t1 as [|[|ms] t1 IH]; simpl; [reflexivity | exact IH | rewrite IH; lia].
Qed.

Lemma fetches_app t1 t2 : fetches (t1 ++ t2) = fetches t1 + fetches t2.
Proof.
  induction t1 as [|[|ms] t1 IH]; simpl; [reflexivity | now rewrite IH | exact IH].
Qed.

Lemma backoff_totals j : forall i,
  fetches (backoffFrom i j) = j
  /\ 2 * waited (backoffFrom i j) = 1000 * (j * (2 * i + j + 1)).
Proof.
  induction j as [|j IH]; intros i; [split; reflexivity|].
  rewrite backoffFrom_S, fetches_app, waited_app.
  destruct (IH (S i)) as [Hf Hw]. split; [simpl; lia|].
  cbn [waited fold_right app]. nia.
Qed.

(** X16: when the attempt of index [j] is the first to succeed and
    [j < retries], [fetchJson] returns its body after exactly [j + 1]
    requests, having waited 1000, 2000, ..., [1000 j] ms between them,
    [500 j (j + 1)] ms in all. *)
Theorem fetchJson_first_success retries j d :
  j < retries ->
  (forall k, k < j -> exists e, fetchOnce k = Failure e) ->
  fetchOnce j = Success d ->
  fetchJson retries = (Returned (Some d), backoffFrom 0 j ++ [Fetch])
  /\ fetches (snd (fetchJson retries)) = j + 1
  /\ waited (snd (fetchJson retries)) = 500 * j * (j + 1).
Proof.
  intros Hj Hfail Hok. unfold Download.fetchJson.
  rewrite (fetchFrom_success retries retries 0 j [] d)
    by (try lia; auto; intros k Hk; apply Hfail; lia).
  rewrite Nat.sub_0_r. cbn [app snd]. split; [reflexivity|].
  rewrite fetches_app, waited_app. destruct (backoff_totals j 0) as [Hf Hw].
  split; [rewrite Hf; reflexivity|]. simpl waited at 2. nia.
Qed.

(** X17: when all [retries >= 1] attempts fail, [fetchJson] throws the
    error of the last one after exactly [retries] requests; it does not
    wait after the last failure. *)
Theorem fetchJson_exhausted retries e :
  0 < retries ->
  (forall k, k < retries -> exists e', fetchOnce k = Failure e') ->
  fetchOnce (retries - 1) = Failure e ->
  fetchJson retries = (Thrown e, backoffFrom 0 (retries - 1) ++ [Fetch])
  /\ fetches (snd (fetchJson retries)) = retries
  /\ waited (snd (fetchJson retries)) = 500 * (retries - 1) * retries.
Proof.
  intros Hpos Hfail Hlast. unfold Download.fetchJson.
  rewrite (fetchFrom_exhausted retries retries 0 [] e)
    by (try lia; auto; intros k Hk; apply Hfail; lia).
  cbn [app snd]. split; [reflexivity|].
  rewrite fetches_app, waited_app.
  destruct (backoff_totals (retries - 1) 0) as [Hf Hw].
  split; [rewrite Hf; simpl; lia|]. simpl waited at 2. nia.
Qed.

Lemma fetchFrom_undefined retries n : forall i trace,
  i + n = retries ->
  fst (fetchFrom retries i n trace) = Returned None -> n = 0.
Proof.
  induction n as [|n IH]; intros i trace Hn; [reflexivity|].
  cbn [Download.fetchFrom]. destruct (fetchOnce i); [discriminate|].
  destruct (Nat.eqb_spec i (retries - 1)); [discriminate|].
  intros H. apply IH in H; lia.
Qed.

Lemma fetchFrom_fetches retries n : forall i trace,
  fetches (snd (fetchFrom retries i n trace)) <= fetches trace + n.
Proof.
  induction n as [|n IH]; intros i trace; cbn [Download.fetchFrom]; [simpl; lia|].
  destruct (fetchOnce i); [cbn [snd]; rewrite fetches_app; simpl; lia|].
  destruct (i =? retries - 1); [cbn [snd]; rewrite fetches_app; simpl; lia|].
  etransitivity; [apply IH|]. rewrite fetches_app. simpl. lia.
Qed.

(** X18: [fetchJson] never makes more than [retries] requests, and it
    resolves to [undefined] exactly when [retries] is 0. *)
Theorem fetchJson_bounded retries :
  fetches (snd (fetchJson retries)) <= retries
  /\ (fst (fetchJson retries) = Returned None <-> retries = 0).
Proof.
  split.
  - apply (fetchFrom_fetches retries retries 0 []).
  - split.
    + apply (fetchFrom_undefined retries retries 0 []). reflexivity.
    + intros ->. reflexivity.
Qed.

End Fetch.
Lemma fetchJson_first_success_witness :
  fetchJson string string Standins.thirdTime 3
  = (Returned (Some "{}"%string), [Fetch; Sleep 1000; Fetch; Sleep 2000; Fetch])
  /\ waited (snd (fetchJson string string Standins.thirdTime 3)) = 3000.
Proof.
  destruct (fetchJson_first_success string string Standins.thirdTime 3 2
              "{}"%string) as (Hrun & _ & Hwait).
  - lia.
  - intros k Hk. exists "HTTP 503"%string.
    destruct k as [|[|k]]; [reflexivity | reflexivity | lia].
  - reflexivity.
  - split; [exact Hrun | exact Hwait].
Defined.

Lemma fetchJson_exhausted_witness :
  fetchJson string string Standins.down 3
  = (Thrown "HTTP 502"%string, [Fetch; Sleep 1000; Fetch; Sleep 2000; Fetch]).
Proof.
  destruct (fetchJson_exhausted string string Standins.down 3
              "HTTP 502"%string) as (Hrun & _).
  - lia.
  - intros k _. eexists. reflexivity.
  - reflexivity.
  - exact Hrun.
Defined.

(** *** Document identifiers *)

Lemma strict_eq_iff x y : strict_eq x y = true <-> x = y.
Proof.
  destruct x as [a|a], y as [b|b]; simpl.
  - rewrite String.eqb_eq. split; congruence.
  - split; discriminate.
  - split; discriminate.
  - rewrite Z.eqb_eq. split; congruence.
Qed.

Lemma setAdd_In s x y : In y (setAdd s x) <-> In y s \/ y = x.
Proof.
  unfold setAdd. destruct (existsb (strict_eq x) s) eqn:Hex.
  - apply existsb_exists in Hex as (z & Hz & Heq). apply strict_eq_iff in Heq.
    subst z. split; [auto | intros [H | ->]; auto].
  - rewrite in_app_iff. simpl. intuition.
Qed.

Lemma NoDup_snoc {A} (s : list A) x :
  List.NoDup s -> ~ In x s -> List.NoDup (s ++ [x]).
Proof.
  induction 1 as [|y s Hy Hs IH]; intros Hx; simpl.
  - constructor; [intros [] | constructor].
  - constructor.
    + rewrite in_app_iff. intros [H | [<- | []]]; [contradiction|].
      apply Hx. now left.
    + apply IH. intros H. apply Hx. now right.
Qed.

Lemma setAdd_NoDup s x : List.NoDup s -> List.NoDup (setAdd s x).
Proof.
  intros Hnd. unfold setAdd.
  destruct (existsb (strict_eq x) s) eqn:Hex; [exact Hnd|].
  apply NoDup_snoc; [exact Hnd|]. intros Hin.
  assert (existsb (strict_eq x) s = true); [|congruence].
  apply existsb_exists. exists x. split; [exact Hin | now apply strict_eq_iff].
Qed.

Lemma addIfTruthy_In s d y :
  In y (addIfTruthy s d) <-> In y s \/ (d = Some y /\ truthyId (Some y) = true).
Proof.
  unfold addIfTruthy. destruct d as [x|].
  - destruct (truthyId (Some x)) eqn:Ht.
    + rewrite setAdd_In. split.
      * intros [H | ->]; auto.
      * intros [H | [[= ->] _]]; auto.
    + split; [auto|]. intros [H | [[= ->] Hy]]; [exact H | congruence].
  - split; [auto|]. intros [H | [[=] _]]. exact H.
Qed.

Lemma addIfTruthy_NoDup s d : List.NoDup s -> List.NoDup (addIfTruthy s d).
Proof.
  intros H. unfold addIfTruthy. destruct d; [|exact H].
  destruct (truthyId _); [now apply setAdd_NoDup | exact H].
Qed.

Lemma collectDocIds_spec qrels : forall docIds,
  match collectDocIds qrels docIds with
  | Normal ids =>
      ~ hasNull qrels
      /\ (List.NoDup docIds -> List.NoDup ids)
      /\ (forall d, In d ids <-> In d docIds \/ judged qrels d)
      /\ exists added, ids = docIds ++ added
  | ThrowTypeError => hasNull qrels
  end.
Proof.
  induction qrels as [|[q [rel|]] rest IH]; intros docIds; cbn [collectDocIds].
  - split; [intros [q []]|]. split; [auto|]. split; [|exists []; now rewrite app_nil_r].
    intros d. split; [auto|]. intros [H | (q & rel & [] & _)]. exact H.
  - specialize (IH (addIfTruthy docIds (j_doc_id rel))).
    destruct (collectDocIds rest _) as [ids|].
    + destruct IH as (Hnull & Hnd & Hin & added & Hadd). split; [|split; [|split]].
      * intros [q' [[=] | H]]. apply Hnull. now exists q'.
      * intros H. now apply Hnd, addIfTruthy_NoDup.
      * intros d. rewrite Hin, addIfTruthy_In. unfold judged. split.
        -- intros [[H | [Hd Ht]] | (q' & rel' & Hq & Hr)]; auto.
           ++ right. exists q, rel. simpl. auto.
           ++ right. exists q', rel'. simpl. tauto.
        -- intros [H | (q' & rel' & [[= <- <-] | Hq] & Hd & Ht)]; auto.
           right. exists q', rel'. auto.
      * unfold addIfTruthy, setAdd in Hadd.
        destruct (j_doc_id rel) as [x|]; [|now exists added].
        destruct (truthyId (Some x)); [|now exists added].
        destruct (existsb _ docIds); [now exists added|].
        exists ([x] ++ added). now rewrite Hadd, <- app_assoc.
    + destruct IH as [q' Hq']. exists q'. now right.
  - exists q. now left.
Qed.

(** X19: [getRequiredDocIds] raises a TypeError exactly when some
    judgment is [null]; otherwise it returns, without duplicates, exactly
    the truthy [doc_id]s of the judgments. *)
Theorem required_doc_ids_are_the_judged_ones qrels :
  match getRequiredDocIds qrels with
  | Normal ids =>
      ~ hasNull qrels /\ List.NoDup ids /\ forall d, In d ids <-> judged qrels d
  | ThrowTypeError => hasNull qrels
  end.
Proof.
  unfold getRequiredDocIds. pose proof (collectDocIds_spec qrels []) as H.
  destruct (collectDocIds qrels []) as [ids|]; [|exact H].
  destruct H as (Hnull & Hnd & Hin & _). split; [exact Hnull|].
  split; [apply Hnd; constructor|].
  intros d. rewrite Hin. simpl. tauto.
Qed.

Lemma collectSafe_filter qrels : forall docIds,
  collectDocIds (List.filter nonNull qrels) docIds
  = Normal (collectDocIdsSafe qrels docIds).
Proof.
  induction qrels as [|[q [rel|]] rest IH]; intros docIds; simpl; auto.
Qed.

Lemma filter_nonNull_id qrels : ~ hasNull qrels -> List.filter nonNull qrels = qrels.
Proof.
  induction qrels as [|[q [rel|]] rest IH]; intros Hnull; simpl.
  - reflexivity.
  - f_equal. apply IH. intros [q' Hq']. apply Hnull. exists q'. now right.
  - exfalso. apply Hnull. exists q. now left.
Qed.

(** X20: in full mode the ingestion reads from [qrels.json] the very
    list of identifiers the download computed: the two loops agree
    whenever the download's returns, and the ingestion's skips the
    [null] judgments on which the download's throws. *)
Theorem ingest_loads_the_downloaded_ids qrels sample :
  loadDocumentIds false sample (Some qrels)
    = Ids (collectDocIdsSafe qrels [])
  /\ getRequiredDocIds (List.filter nonNull qrels)
     = Normal (collectDocIdsSafe qrels [])
  /\ (forall ids, getRequiredDocIds qrels = Normal ids ->
        loadDocumentIds false sample (Some qrels) = Ids ids).
Proof.
  split; [reflexivity|]. split; [apply collectSafe_filter|].
  intros ids H. cbn [loadDocumentIds]. f_equal.
  pose proof (collectDocIds_spec qrels []) as Hspec.
  unfold getRequiredDocIds in H. rewrite H in Hspec. destruct Hspec as (Hnull & _).
  pose proof (collectSafe_filter qrels []) as Hs.
  rewrite (filter_nonNull_id qrels Hnull), H in Hs. congruence.
Qed.

End DownloadFacts.

(** ** Ingestion: sections, chunks and points *)

Module ExtractFacts.
Import Scorer Ingest.

Section Extract.
Variable trim : string -> string.

Local Abbreviation sectionEntry := (sectionEntry trim).
Local Abbreviation forEachFrom := (forEachFrom trim).
Local Abbreviation extractSections := (extractSections trim).

Lemma sectionEntry_cases doc idx section :
  (sectionEntry doc idx section = []
   /\ forall text0, truthyString (sec_text section) = Some text0 ->
                    trim text0 = EmptyString)
  \/ (exists text0,
        truthyString (sec_text section) = Some text0
        /\ trim text0 <> EmptyString
        /\ sectionEntry doc idx section
           = [mkExtracted (Z.of_nat idx)
                (trim (withTables text0 (sec_tables section)))
                (mkMetadata "section" (orEmpty (title doc)))]).
Proof.
  unfold Ingest.sectionEntry.
  destruct (truthyString (sec_text section)) as [text0|]; [|left; split; [reflexivity | discriminate]].
  destruct (trim text0) eqn:Ht.
  - left. split; [reflexivity|]. now intros ? [= <-].
  - right. exists text0. rewrite Ht. repeat split; discriminate || reflexivity.
Qed.

(** Every entry the loop pushes from index [idx] on carries the index of its section. *)
Lemma forEachFrom_In doc l : forall idx e,
  In e (forEachFrom doc idx l) <->
  exists i section text0,
    nth_error l i = Some section
    /\ truthyString (sec_text section) = Some text0
    /\ trim text0 <> EmptyString
    /\ e = mkExtracted (Z.of_nat (idx + i))
             (trim (withTables text0 (sec_tables section)))
             (mkMetadata "section" (orEmpty (title doc))).
Proof.
  induction l as [|section rest IH]; intros idx e; cbn [Ingest.forEachFrom].
  - split; [intros [] | intros (i & ? & ? & Hn & _); destruct i; discriminate Hn].
  - rewrite in_app_iff, IH. split.
    + intros [Hin | (i & s & t & Hn & Ht & Hb & ->)].
      * destruct (sectionEntry_cases doc idx section) as [[Hnil _] | (t & Ht & Hb & Hone)].
        -- rewrite Hnil in Hin. destruct Hin.
        -- rewrite Hone in Hin. destruct Hin as [<- | []].
           exists 0, section, t. rewrite Nat.add_0_r. auto.
      * exists (S i), s, t. replace (idx + S i) with (S idx + i) by lia. auto.
    + intros (i & s & t & Hn & Ht & Hb & ->). destruct i as [|i].
      * injection Hn as <-. left.
        destruct (sectionEntry_cases doc idx section)
          as [[_ Hblank] | (t' & Ht' & _ & Hone)].
        -- destruct Hb. now apply Hblank.
        -- rewrite Hone. rewrite Ht in Ht'. injection Ht' as <-.
           rewrite Nat.add_0_r. now left.
      * right. exists i, s, t. replace (S idx + i) with (idx + S i) by lia. auto.
Qed.

Lemma forEachFrom_sorted doc l : forall idx,
  StronglySorted Z.lt (map sectionId (forEachFrom doc idx l))
  /\ Forall (fun e => (Z.of_nat idx <= sectionId e)%Z) (forEachFrom doc idx l)
  /\ length (forEachFrom doc idx l) <= length l.
Proof.
  induction l as [|section rest IH]; intros idx; cbn [Ingest.forEachFrom].
  - repeat split; constructor.
  - destruct (IH (S idx)) as (Hs & Hlo & Hlen).
    assert (Hlo' : Forall (fun e => (Z.of_nat idx < sectionId e)%Z) (forEachFrom doc (S idx) rest)).
    { eapply List.Forall_impl; [|exact Hlo]. simpl. intros e He. lia. }
    destruct (sectionEntry_cases doc idx section) as [[-> _] | (t & _ & _ & ->)]; simpl.
    + split; [exact Hs|]. split; [|lia].
      eapply List.Forall_impl; [|exact Hlo']. simpl. intros; lia.
    + split; [|split; [|lia]].
      * constructor; [exact Hs|]. rewrite List.Forall_map. exact Hlo'.
      * constructor; [simpl; lia|].
        eapply List.Forall_impl; [|exact Hlo']. simpl. intros; lia.
Qed.

Lemma extractSections_sorted doc :
  StronglySorted Z.lt (map sectionId (extractSections doc))
  /\ Forall (fun e => (-1 <= sectionId e)%Z) (extractSections doc)
  /\ length (extractSections doc)
     <= 1 + match sections doc with Some l => length l | None => 0 end.
Proof.
  { unfold Ingest.extractSections.
    set (body := match sections doc with Some l => forEachFrom doc 0 l | None => [] end).
    assert (Hb : StronglySorted Z.lt (map sectionId body)
                 /\ Forall (fun e => (0 <= sectionId e)%Z) body
                 /\ length body <= match sections doc with Some l => length l | None => 0 end).
    { unfold body. destruct (sections doc) as [l|].
      - apply (forEachFrom_sorted doc l 0).
      - repeat split; constructor. }
    destruct Hb as (Hs & Hlo & Hlen).
    destruct (truthyString (abstract doc)); simpl.
    - split; [|split; [|lia]].
      + constructor; [exact Hs|]. rewrite List.Forall_map.
        eapply List.Forall_impl; [|exact Hlo]. simpl. intros; lia.
      + constructor; [simpl; lia|].
        eapply List.Forall_impl; [|exact Hlo]. simpl. intros; lia.
    - split; [exact Hs|]. split; [|lia].
      eapply List.Forall_impl; [|exact Hlo]. simpl. intros; lia. }
Qed.

Lemma section_ids_distinct doc :
  List.NoDup (map sectionId (extractSections doc)).
Proof.
  destruct (extractSections_sorted doc) as (Hs & _).
  induction Hs as [|x l Hs IH Hx]; constructor; auto.
  intros Hin. rewrite List.Forall_forall in Hx. specialize (Hx x Hin). lia.
Qed.

(** X21: the extracted sections carry strictly increasing identifiers,
    hence pairwise distinct ones, all at least -1, and there is at most
    one entry per section of the document plus one for the abstract. *)
Theorem section_ids_strictly_increase doc :
  StronglySorted Z.lt (map sectionId (extractSections doc))
  /\ List.NoDup (map sectionId (extractSections doc))
  /\ Forall (fun e => (-1 <= sectionId e)%Z) (extractSections doc)
  /\ length (extractSections doc)
     <= 1 + match sections doc with Some l => length l | None => 0 end.
Proof.
  destruct (extractSections_sorted doc) as (Hs & Hlo & Hlen).
  repeat split; auto. apply section_ids_distinct.
Qed.

(** X22: an entry is extracted exactly for the truthy abstract, with
    identifier -1 and its text as it is, and for each section whose text
    is not blank, with the index of the section in the document as its
    identifier (sections skipped before it do not shift it) and the
    text, tables appended, trimmed. *)
Theorem section_id_is_source_index doc e :
  In e (extractSections doc) <->
  (exists text, truthyString (abstract doc) = Some text
     /\ e = mkExtracted (-1) text (mkMetadata "abstract" (orEmpty (title doc))))
  \/ (exists l i section text0,
        sections doc = Some l
        /\ nth_error l i = Some section
        /\ truthyString (sec_text section) = Some text0
        /\ trim text0 <> EmptyString
        /\ e = mkExtracted (Z.of_nat i)
                 (trim (withTables text0 (sec_tables section)))
                 (mkMetadata "section" (orEmpty (title doc)))).
Proof.
  unfold Ingest.extractSections. rewrite in_app_iff. split.
  - intros [Habs | Hsec].
    + left. destruct (truthyString (abstract doc)) as [text|]; [|destruct Habs].
      destruct Habs as [<- | []]. eauto.
    + right. destruct (sections doc) as [l|]; [|destruct Hsec].
      apply forEachFrom_In in Hsec as (i & s & t & Hn & Ht & Hb & ->).
      exists l, i, s, t. auto.
  - intros [(text & Ht & ->) | (l & i & s & t & Hl & Hn & Ht & Hb & ->)].
    + left. rewrite Ht. now left.
    + right. rewrite Hl. apply forEachFrom_In. exists i, s, t. auto.
Qed.

End Extract.
End ExtractFacts.

Module ProcessFacts.
Import Cosine Chunker ChunkerSpec ChunkerFacts Scorer Ingest IngestSpec.

Lemma NoDup_append {A} (l l' : list A) :
  List.NoDup l -> List.NoDup l' -> (forall x, In x l -> ~ In x l') ->
  List.NoDup (l ++ l').
Proof.
  induction 1 as [|x l Hx Hl IH]; intros Hl' Hdisj; simpl; [exact Hl'|].
  constructor.
  - rewrite in_app_iff. intros [H | H]; [contradiction|].
    apply (Hdisj x); [now left | exact H].
  - apply IH; [exact Hl'|]. intros y Hy. apply Hdisj. now right.
Qed.

Section Process.
Variable splitIntoSentences : string -> list string.
Variable encode : string -> list nat.
Variable embedText : string -> option Cosine.vector.
Variable trim : string -> string.

Local Abbreviation chunkSection := (chunkSection splitIntoSentences encode embedText).
Local Abbreviation embedChunks := (embedChunks embedText).
Local Abbreviation processSections :=
  (processSections splitIntoSentences encode embedText).
Local Abbreviation processDocument :=
  (processDocument splitIntoSentences encode embedText trim).

Lemma chunkWith_run_from {C} (emit : list string -> C) text opts log :
  chunkWith splitIntoSentences encode embedText emit text opts log =
  (match promiseAll (map embedText (splitIntoSentences text)) with
   | None => Rejected
   | Some embs =>
       Fulfilled (chunkLoop encode emit opts (splitIntoSentences text) embs)
   end, log ++ splitIntoSentences text).
Proof.
  unfold chunkWith, bind. rewrite mapE_invoke.
  destruct (promiseAll _); reflexivity.
Qed.

Lemma chunkLoop_nil_iff opts sentences embs :
  chunkLoop encode join opts sentences embs = [] <-> sentences = [].
Proof.
  rewrite chunkLoop_map.
  destruct (chunkLoop_groups encode opts sentences embs) as (Hcat & Hne & _).
  set (groups := chunkLoop encode (fun g => g) opts sentences embs) in *.
  split.
  - intros Hnil. apply map_eq_nil in Hnil. rewrite <- Hcat, Hnil. reflexivity.
  - intros ->. destruct groups as [|g gs]; [reflexivity|].
    inversion Hne as [|? ? Hg _]; subst.
    simpl in Hcat. apply app_eq_nil in Hcat as [-> _]. contradiction.
Qed.

Lemma chunkSection_cases text maxChunkSize log :
  (utf16Length text < maxChunkSize * 2
   /\ chunkSection text maxChunkSize log = (Fulfilled [text], log))
  \/ (maxChunkSize * 2 <= utf16Length text
      /\ exists chunks,
           chunkSection text maxChunkSize log
           = (Fulfilled chunks, log ++ splitIntoSentences text)
           /\ ((exists s, In s (splitIntoSentences text) /\ embedText s = None)
               -> chunks = [text])
           /\ (chunks = [] <-> splitIntoSentences text = [])).
Proof.
  unfold Ingest.chunkSection.
  destruct (Nat.ltb_spec (utf16Length text) (maxChunkSize * 2)) as [Hshort | Hlong].
  - left. split; [exact Hshort | reflexivity].
  - right. split; [exact Hlong|].
    unfold bind, Chunker.semanticChunkWithLimits. rewrite chunkWith_run_from.
    destruct (promiseAll _) as [embs|] eqn:Hall.
    + eexists. split; [reflexivity|]. split; [|apply chunkLoop_nil_iff].
      intros (s & Hin & Hs). apply promiseAll_fulfilled in Hall.
      rewrite List.Forall_forall in Hall. now destruct (Hall s Hin).
    + exists [text]. split; [reflexivity|]. split; [reflexivity|].
      split; [discriminate|]. intros Hnil. rewrite Hnil in Hall. discriminate.
Qed.

(** X23: [chunkSection] never rejects.  A text of fewer UTF-16 code
    units than twice [maxChunkSize] comes back whole without any
    embedding call, a text one of whose sentences cannot be embedded
    comes back whole, and the result is empty exactly for a long text
    with no sentence. *)
Theorem chunkSection_never_rejects text maxChunkSize log :
  exists chunks,
    fst (chunkSection text maxChunkSize log) = Fulfilled chunks
    /\ (utf16Length text < maxChunkSize * 2 ->
        chunks = [text] /\ snd (chunkSection text maxChunkSize log) = log)
    /\ ((exists s, In s (splitIntoSentences text) /\ embedText s = None) ->
        chunks = [text])
    /\ (chunks = [] <->
        maxChunkSize * 2 <= utf16Length text
        /\ splitIntoSentences text = []).
Proof.
  destruct (chunkSection_cases text maxChunkSize log)
    as [[Hshort ->] | (Hlong & chunks & -> & Hrej & Hnil)].
  - exists [text]. cbn [fst snd]. repeat split; auto; try discriminate; lia.
  - exists chunks. cbn [fst snd]. split; [reflexivity|].
    split; [lia|]. split; [exact Hrej|].
    rewrite Hnil. tauto.
Qed.

Lemma idsFrom_length pointId n : length (idsFrom pointId n) = n.
Proof.
  revert pointId. induction n as [|n IH]; intros pointId; simpl;
    [reflexivity | now rewrite IH].
Qed.

Lemma idsFrom_app pointId a b :
  idsFrom pointId (a + b) = idsFrom pointId a ++ idsFrom (advance pointId a) b.
Proof.
  revert pointId. induction a as [|a IH]; intros pointId; simpl;
    [reflexivity | now rewrite IH].
Qed.

Lemma advance_add pointId a b :
  advance pointId (a + b) = advance (advance pointId a) b.
Proof.
  revert pointId. induction a as [|a IH]; intros pointId; simpl;
    [reflexivity | apply IH].
Qed.

(** What the inner loop adds for one section. *)
Lemma embedChunks_spec docId section chunks :
  forall chunkIdx pointId points log,
  match embedChunks docId section chunks chunkIdx pointId points log with
  | (Fulfilled (points', next), log') =>
      exists new,
        points' = points ++ new
        /\ map id new = idsFrom pointId (length chunks)
        /\ next = advance pointId (length chunks)
        /\ map chunkKey new
           = map (fun i => (sectionId section, i)) (seq chunkIdx (length chunks))
        /\ Forall (fun p => doc_id (payload p) = docId) new
        /\ map (fun p => text (payload p)) new = chunks
  | (Rejected, log') => exists s, In s log' /\ embedText s = None
  end.
Proof.
  induction chunks as [|chunkText rest IH]; intros chunkIdx pointId points log;
    cbn [Ingest.embedChunks].
  - exists []. rewrite app_nil_r. repeat split; constructor.
  - unfold bind, invoke at 1. destruct (embedText chunkText) as [v|] eqn:Hv.
    + specialize (IH (S chunkIdx) (Binary64.incr pointId)
                     (points ++ [mkPoint pointId v
                        (mkPayload docId (sectionId section) chunkIdx chunkText
                           (md_title (metadata section)) (md_type (metadata section)))])
                     (log ++ [chunkText])).
      destruct (embedChunks _ _ rest _ _ _ _) as [[[points' next]|] log'];
        [|exact IH].
      destruct IH as (new & -> & Hid & -> & Hkey & Hdoc & Htext).
      eexists (_ :: new). rewrite <- app_assoc. split; [reflexivity|].
      cbn [map length seq id payload idsFrom advance]. rewrite Hid, Hkey, Htext.
      repeat split; try reflexivity. now constructor.
    + exists chunkText. split; [|exact Hv]. apply in_or_app. right. now left.
Qed.

Lemma seq_keys_NoDup (sid : Z) n : forall i,
  List.NoDup (map (fun i => (sid, i)) (seq i n)).
Proof.
  induction n as [|n IH]; intros i; simpl; constructor; [|apply IH].
  rewrite in_map_iff. intros (j & [= ->] & Hj). apply in_seq in Hj. lia.
Qed.

Lemma chunkSection_fulfils text maxChunkSize log :
  exists chunks log',
    chunkSection text maxChunkSize log = (Fulfilled chunks, log').
Proof.
  destruct (chunkSection_cases text maxChunkSize log)
    as [[_ ->] | (_ & chunks & -> & _)]; eauto.
Qed.

Lemma processSections_spec docId sections :
  forall pointId points log,
  match processSections docId sections pointId points log with
  | (Fulfilled (points', next), log') =>
      exists new,
        points' = points ++ new
        /\ map id new = idsFrom pointId (length new)
        /\ next = advance pointId (length new)
        /\ Forall (fun p => doc_id (payload p) = docId) new
        /\ Forall (fun p => In (section_id (payload p)) (map sectionId sections)) new
        /\ (List.NoDup (map sectionId sections) -> List.NoDup (map chunkKey new))
  | (Rejected, log') => exists s, In s log' /\ embedText s = None
  end.
Proof.
  induction sections as [|section rest IH]; intros pointId points log;
    cbn [Ingest.processSections].
  - exists []. rewrite app_nil_r. repeat split; constructor.
  - unfold bind at 1.
    destruct (chunkSection_fulfils (ex_text section) 500 log)
      as (chunks & log0 & ->).
    unfold bind at 1.
    pose proof (embedChunks_spec docId section chunks 0 pointId points log0) as He.
    destruct (embedChunks _ _ _ _ _ _ _) as [[[points1 next1]|] log1]; [|exact He].
    destruct He as (new1 & -> & Hid1 & -> & Hkey1 & Hdoc1 & _).
    specialize (IH (advance pointId (length chunks)) (points ++ new1) log1).
    destruct (processSections _ rest _ _ _) as [[[points' next]|] log']; [|exact IH].
    destruct IH as (new & -> & Hid & -> & Hdoc & Hsec & Hnd).
    assert (Hlen1 : length new1 = length chunks)
      by (rewrite <- (length_map id), Hid1, idsFrom_length; reflexivity).
    assert (Hsid : forall p, In p new1 -> section_id (payload p) = sectionId section).
    { intros p Hp.
      assert (Hk : In (chunkKey p) (map chunkKey new1)) by now apply in_map.
      rewrite Hkey1 in Hk. apply in_map_iff in Hk as (i & Hi & _).
      unfold chunkKey in Hi. now injection Hi. }
    exists (new1 ++ new). rewrite <- app_assoc. split; [reflexivity|].
    rewrite map_app, length_app, Hid1, Hid, Hlen1, idsFrom_app, advance_add.
    repeat split.
    + apply Forall_app. split; assumption.
    + apply Forall_app. split.
      * apply List.Forall_forall. intros p Hp. left. symmetry. now apply Hsid.
      * eapply List.Forall_impl; [|exact Hsec]. simpl. auto.
    + intros Hids. inversion Hids as [|? ? Hfresh Hrest]; subst.
      rewrite map_app. apply NoDup_append.
      * rewrite Hkey1. apply seq_keys_NoDup.
      * now apply Hnd.
      * intros k Hk1 Hk2.
        apply in_map_iff in Hk1 as (p1 & <- & Hin1).
        apply in_map_iff in Hk2 as (p & Hp & Hin).
        rewrite List.Forall_forall in Hsec. specialize (Hsec p Hin).
        unfold chunkKey in Hp. injection Hp as Hp _.
        rewrite Hp, (Hsid p1 Hin1) in Hsec. contradiction.
Qed.

(** While the counter stays within [2 ^ 53] its increments are exact:
    the identifiers handed out are consecutive integers, all distinct. *)
Lemma idsFrom_consecutive n : forall start,
  (0 <= start)%Z -> (start + Z.of_nat n <= 2 ^ 53)%Z ->
  idsFrom (Binary64.of_Z start) n = consecutive start n
  /\ advance (Binary64.of_Z start) n = Binary64.of_Z (start + Z.of_nat n).
Proof.
  unfold consecutive.
  induction n as [|n IH]; intros start Hlo Hhi; cbn [idsFrom advance seq map].
  - rewrite Z.add_0_r. split; reflexivity.
  - unfold Binary64.incr. rewrite Binary64Facts.of_Z_succ by lia.
    destruct (IH (start + 1)%Z ltac:(lia) ltac:(lia)) as [-> ->].
    rewrite Z.add_0_r, <- seq_shift, map_map. split.
    + f_equal. apply map_ext. intros i. f_equal. lia.
    + f_equal. lia.
Qed.

Lemma consecutive_NoDup n : forall start,
  (0 <= start)%Z -> (start + Z.of_nat n <= 2 ^ 53)%Z ->
  List.NoDup (consecutive start n).
Proof.
  unfold consecutive. intros start Hlo Hhi.
  assert (Hseq : List.NoDup (seq 0 n)) by apply List.seq_NoDup.
  assert (Hin : forall i, In i (seq 0 n) -> i < n)
    by (intros i Hi; apply in_seq in Hi; lia).
  induction (seq 0 n) as [|i l IH]; cbn [map]; constructor.
  - inversion Hseq as [|? ? Hfresh _]; subst.
    rewrite in_map_iff. intros (j & Heq & Hj). apply Hfresh.
    assert (Hi : i < n) by (apply Hin; now left).
    assert (Hjn : j < n) by (apply Hin; now right).
    apply Binary64Facts.of_Z_inj in Heq; [|lia|lia].
    assert (j = i) by lia. now subst.
  - inversion Hseq; subst. apply IH; [assumption|].
    intros j Hj. apply Hin. now right.
Qed.

(** X24: as long as the counter stays within [2 ^ 53], the points of a
    document carry the consecutive integers [start], [start + 1], ...
    as identifiers, all distinct, and [nextPointId] is the first unused
    one; every point carries the document's identifier; the call
    rejects only when an embedding call rejects. *)
Theorem point_ids_are_consecutive docId doc (start : Z) log :
  match processDocument docId doc (Binary64.of_Z start) log with
  | (Fulfilled (points, nextPointId), _) =>
      Forall (fun p => doc_id (payload p) = docId) points
      /\ ((0 <= start)%Z ->
          (start + Z.of_nat (length points) <= 2 ^ 53)%Z ->
          map id points = consecutive start (length points)
          /\ nextPointId = Binary64.of_Z (start + Z.of_nat (length points))
          /\ List.NoDup (map id points))
  | (Rejected, log') => exists s, In s log' /\ embedText s = None
  end.
Proof.
  unfold Ingest.processDocument.
  pose proof (processSections_spec docId (extractSections trim doc)
                (Binary64.of_Z start) [] log) as H.
  destruct (processSections _ _ _ _ _) as [[[points next]|] log']; [|exact H].
  destruct H as (new & -> & Hid & -> & Hdoc & _). cbn [app].
  split; [exact Hdoc|]. intros Hlo Hhi.
  destruct (idsFrom_consecutive (length new) start Hlo Hhi) as [Hids Hnext].
  rewrite Hid, Hids, Hnext. repeat split.
  now apply consecutive_NoDup.
Qed.

(** X25: within a document no two points share a (section, chunk)
    pair, and every point belongs to an extracted section. *)
Theorem chunk_keys_are_unique docId doc startingPointId log :
  match processDocument docId doc startingPointId log with
  | (Fulfilled (points, _), _) =>
      List.NoDup (map chunkKey points)
      /\ Forall (fun p => In (section_id (payload p))
                             (map sectionId (extractSections trim doc))) points
  | (Rejected, log') => exists s, In s log' /\ embedText s = None
  end.
Proof.
  unfold Ingest.processDocument.
  pose proof (processSections_spec docId (extractSections trim doc)
                startingPointId [] log) as H.
  destruct (processSections _ _ _ _ _) as [[[points next]|] log']; [|exact H].
  destruct H as (new & -> & _ & _ & _ & Hsec & Hnd). simpl. split; [|exact Hsec].
  apply Hnd. apply (ExtractFacts.section_ids_distinct trim doc).
Qed.

End Process.

(** The length that decides is counted in UTF-16 code units, not in
    bytes: nine for a text of thirteen bytes. *)
Lemma chunkSection_counts_code_units :
  utf16Length "Été. Été." = 9
  /\ String.length "Été. Été." = 13
  /\ chunkSection Toy.splitIntoSentences Toy.encode Toy.embedFn "Été. Été." 5 []
     = (Fulfilled ["Été. Été."%string], []).
Proof. repeat split. Qed.

Lemma point_ids_are_consecutive_witness :
  processDocument Toy.splitIntoSentences Toy.encode Toy.embedFn (fun s => s)
    (IdStr "d") sampleDoc (Binary64.of_Z (2 ^ 53 - 3)) []
  = (Fulfilled
       ([mkPoint (Binary64.of_Z (2 ^ 53 - 3)) [1%float; 0%float]
           (mkPayload (IdStr "d") (-1) 0 "Hi. Nine char." "T" "abstract");
         mkPoint (Binary64.of_Z (2 ^ 53 - 2)) [1%float; 0%float]
           (mkPayload (IdStr "d") 0 0 "One." "T" "section");
         mkPoint (Binary64.of_Z (2 ^ 53 - 1)) [1%float; 0%float]
           (mkPayload (IdStr "d") 2 0 "Two." "T" "section")],
        Binary64.of_Z (2 ^ 53)),
     ["Hi. Nine char."; "One."; "Two."]%string)
  /\ List.NoDup
       [Binary64.of_Z (2 ^ 53 - 3); Binary64.of_Z (2 ^ 53 - 2);
        Binary64.of_Z (2 ^ 53 - 1)].
Proof.
  split; [reflexivity|].
  pose proof (point_ids_are_consecutive Toy.splitIntoSentences Toy.encode
                Toy.embedFn (fun s => s) (IdStr "d") sampleDoc (2 ^ 53 - 3) [])
    as H.
  cbv beta iota delta [processDocument] in H.
  change (processSections Toy.splitIntoSentences Toy.encode Toy.embedFn
            (IdStr "d") (extractSections (fun s => s) sampleDoc)
            (Binary64.of_Z (2 ^ 53 - 3)) [] [])
    with (Fulfilled
       ([mkPoint (Binary64.of_Z (2 ^ 53 - 3)) [1%float; 0%float]
           (mkPayload (IdStr "d") (-1) 0 "Hi. Nine char." "T" "abstract");
         mkPoint (Binary64.of_Z (2 ^ 53 - 2)) [1%float; 0%float]
           (mkPayload (IdStr "d") 0 0 "One." "T" "section");
         mkPoint (Binary64.of_Z (2 ^ 53 - 1)) [1%float; 0%float]
           (mkPayload (IdStr "d") 2 0 "Two." "T" "section")],
        Binary64.of_Z (2 ^ 53)),
     ["Hi. Nine char."; "One."; "Two."]%string) in H.
  cbv beta iota in H. destruct H as [_ H].
  destruct H as (_ & _ & Hnd); [lia | cbn [length]; lia | exact Hnd].
Defined.

(** Past [2 ^ 53] the increment no longer advances: from
    [2 ^ 53 - 1] the second and the third point get the same
    identifier. *)
Lemma point_ids_repeat_past_2_53 :
  match processDocument Toy.splitIntoSentences Toy.encode Toy.embedFn
          (fun s => s) (IdStr "d") sampleDoc (Binary64.of_Z (2 ^ 53 - 1)) [] with
  | (Fulfilled (points, nextPointId), _) =>
      map id points
      = [Binary64.of_Z (2 ^ 53 - 1); Binary64.of_Z (2 ^ 53); Binary64.of_Z (2 ^ 53)]
      /\ nextPointId = Binary64.of_Z (2 ^ 53)
  | (Rejected, _) => False
  end.
Proof. vm_compute. split; reflexivity. Qed.

End ProcessFacts.
